(** * DFG lookup-texture generator: a shallow embedding of
      [tools/generate_dfg_texture.py] and its checked properties.

    Numbers.  Python floats and NumPy [float64] values are read as real
    numbers ([R]); an operation that raises ([math.sqrt] of a negative
    number, a Python division by zero) or that yields an IEEE infinity or
    NaN (a NumPy division by zero) has no real value and is modelled by
    [None].  The functions over [R] return wherever exact arithmetic does.
    Binary64 rounding can make the program raise where exact arithmetic
    returns: module [B64] embeds the arithmetic of lines 44-46 in binary64
    and is evaluated below at such an input.  Statements about the
    sampler, the integrator and [main] are therefore made of returned
    results.  Where an integer is derived from a float (the truncation in
    [write_dfg]) the rounding of the product is a parameter, [round].

    Integers.  Python [int] and NumPy [int64] values are read as [Z]; the
    conversion of a Python [int] to [int64] fails outside the [int64]
    range ([np_int64]).  Lemma [hammersley_steps_fit_int64] shows that for
    a 32-bit sample index no intermediate value of [hammersley] leaves the
    [int64] range, so no wrap-around takes place there. *)

From Stdlib Require Import ZArith List Reals Lra Lia Bool Btauto.
From Stdlib Require Import String Ascii DecimalString Permutation.
From Stdlib.Strings Require Import Byte.
From Stdlib Require PrimFloat PrimInt63.
Import ListNotations.

Local Open Scope Z_scope.
Local Open Scope R_scope.

(** ** Monads used by the embedding *)

Class Monad (M : Type -> Type) : Type := {
  ret {A : Type} (x : A) : M A;
  bind {A B : Type} (m : M A) (k : A -> M B) : M B
}.

Notation "x <- e ;; k" := (bind e (fun x => k))
  (at level 61, e at next level, right associativity).
Notation "e ;;; k" := (bind e (fun _ => k))
  (at level 61, right associativity).

(** Failure: [None] stands for a raised exception or a non-finite float. *)
#[export] Instance option_monad : Monad option := {
  ret := fun A a => Some a;
  bind := fun A B m f => match m with Some a => f a | None => None end
}.

(** The arguments of one call of [visibility]. *)
Definition call : Type := R * R * R.

(** Failure together with the log of the calls of [visibility] made so far;
    the log survives a failure. *)
Definition Trace (A : Type) : Type := list call * option A.

#[export] Instance trace_monad : Monad Trace := {
  ret := fun A a => ([], Some a);
  bind := fun A B m f =>
    match m with
    | (log, Some a) => let (log', r) := f a in (log ++ log', r)
    | (log, None) => (log, None)
    end
}.

Definition trace_lift {A : Type} (m : option A) : Trace A := ([], m).

(** Failure together with the bytes written to the open file [fp]. *)
Definition File (A : Type) : Type := list byte -> list byte * option A.

#[export] Instance file_monad : Monad File := {
  ret := fun A a fp => (fp, Some a);
  bind := fun A B m f fp =>
    match m fp with
    | (fp', Some a) => f a fp'
    | (fp', None) => (fp', None)
    end
}.

Definition file_lift {A : Type} (m : option A) : File A := fun fp => (fp, m).

(** [fp.write(data)] *)
Definition fp_write (data : list byte) : File unit :=
  fun fp => (fp ++ data, Some tt).

(** [for x in xs: s = body(x, s)] *)
Fixpoint for_each {M : Type -> Type} `{Monad M} {S : Type}
    (xs : list Z) (body : Z -> S -> M S) (s : S) : M S :=
  match xs with
  | [] => ret s
  | x :: xs' => s' <- body x s ;; for_each xs' body s'
  end.

(** ** Python and NumPy primitives *)

(** Float division; undefined on a zero divisor. *)
Definition py_div (x y : R) : option R :=
  if Req_dec_T y 0 then None else Some (x / y).

(** [math.sqrt]; raises [ValueError] on a negative argument. *)
Definition py_sqrt (x : R) : option R :=
  if Rle_dec 0 x then Some (sqrt x) else None.

(** [int(x)] on a float: truncation toward zero. *)
Definition py_int (x : R) : Z :=
  if Rle_dec 0 x then Int_part x else (- Int_part (- x))%Z.

(** A Python [int] that enters a NumPy integer operation is converted to
    [int64]; the conversion raises [OverflowError] outside the range. *)
Definition np_int64 (z : Z) : option Z :=
  if ((- 2 ^ 63 <=? z) && (z <? 2 ^ 63))%Z then Some z else None.

(** [range(n)] *)
Definition range (n : Z) : list Z := map Z.of_nat (seq 0 (Z.to_nat n)).

(** One ['B'] field of [struct.pack]: an integer in [0, 255]. *)
Definition pack_B (n : Z) : option byte :=
  if ((0 <=? n) && (n <=? 255))%Z then Byte.of_N (Z.to_N n) else None.

(** [struct.pack('BBB', *args)]; raises [struct.error] unless exactly three
    arguments are given. *)
Definition struct_pack_BBB (args : list Z) : option (list byte) :=
  match args with
  | [r; g; b] =>
      br <- pack_B r ;; bg <- pack_B g ;; bb <- pack_B b ;;
      ret [br; bg; bb]
  | _ => None
  end.

(** Three-component vectors ([tuple]s and NumPy arrays of length 3). *)
Record vec3 : Type := Vec3 { vx : R; vy : R; vz : R }.

(** [numpy.dot(v, h)] *)
Definition dot (v h : vec3) : R := vx v * vx h + vy v * vy h + vz v * vz h.

(** [numpy.multiply(s, h)] and [s * h] for a scalar [s] *)
Definition vscale (s : R) (h : vec3) : vec3 :=
  Vec3 (s * vx h) (s * vy h) (s * vz h).

(** [p - v] *)
Definition vsub (p v : vec3) : vec3 :=
  Vec3 (vx p - vx v) (vy p - vy v) (vz p - vz v).

(** Squared magnitude of a vector. *)
Definition norm2 (h : vec3) : R := vx h * vx h + vy h * vy h + vz h * vz h.

(** ** The program *)

(** [saturate(value) = min(max(value, 0.0), 1.0)] *)
Definition saturate (value : R) : R := Rmin (Rmax value 0) 1.

(** [tof = 0.5 / 0x80000000] *)
Definition tof : R := 0.5 / 2147483648.

(** The five assignments to [bits] in [hammersley], in source order.  The
    first one does not mask. *)
Definition step1 (bits : Z) : Z :=
  Z.lor (Z.shiftl bits 16) (Z.shiftr bits 16).
Definition step2 (bits : Z) : Z :=
  Z.lor (Z.shiftl (Z.land bits 0x55555555) 1)
        (Z.shiftr (Z.land bits 0xAAAAAAAA) 1).
Definition step3 (bits : Z) : Z :=
  Z.lor (Z.shiftl (Z.land bits 0x33333333) 2)
        (Z.shiftr (Z.land bits 0xCCCCCCCC) 2).
Definition step4 (bits : Z) : Z :=
  Z.lor (Z.shiftl (Z.land bits 0x0F0F0F0F) 4)
        (Z.shiftr (Z.land bits 0xF0F0F0F0) 4).
Definition step5 (bits : Z) : Z :=
  Z.lor (Z.shiftl (Z.land bits 0x00FF00FF) 8)
        (Z.shiftr (Z.land bits 0xFF00FF00) 8).

(** The value of [bits] when [hammersley] returns. *)
Definition hammersley_bits (i : Z) : Z :=
  let bits := i in
  let bits := step1 bits in
  let bits := step2 bits in
  let bits := step3 bits in
  let bits := step4 bits in
  let bits := step5 bits in
  bits.

(** On line 33 the Python [int] [bits] enters [numpy.right_shift], and the
    Python [int] [bits << 16] enters [|] with an [int64]: both are
    converted to [int64]. *)
Definition hammersley (i number_of_samples : Z) : option (R * R) :=
  np_int64 i ;;;
  np_int64 (Z.shiftl i 16) ;;;
  u0 <- py_div (IZR i) (IZR number_of_samples) ;;
  ret (u0, IZR (hammersley_bits i) * tof).

Definition hemisphere_importance_sample_dggx (u : R * R) (a : R)
    : option vec3 :=
  let phi := 2 * PI * fst u in
  cos_theta2 <- py_div (1 - snd u) (1 + (a + 1) * ((a - 1) * snd u)) ;;
  cos_theta <- py_sqrt cos_theta2 ;;
  sin_theta <- py_sqrt (1 - cos_theta2) ;;
  ret (Vec3 (sin_theta * cos phi) (sin_theta * sin phi) cos_theta).

(** The two summands of the divisor of [visibility]. *)
Definition visibility_ggxl (nov nol a : R) : option R :=
  let a2 := a * a in
  s <- py_sqrt ((nol - nol * a2) * nol + a2) ;; ret (nov * s).
Definition visibility_ggxv (nov nol a : R) : option R :=
  let a2 := a * a in
  s <- py_sqrt ((nov - nov * a2) * nov + a2) ;; ret (nol * s).

Definition visibility (nov nol a : R) : option R :=
  ggxl <- visibility_ggxl nov nol a ;;
  ggxv <- visibility_ggxv nov nol a ;;
  py_div 0.5 (ggxv + ggxl).

(** The first two arguments of a logged call. *)
Definition call_nov (c : call) : R := fst (fst c).
Definition call_nol (c : call) : R := snd (fst c).

(** A call of [visibility] from [calculate_dfg], entered in the log. *)
Definition call_visibility (nov nol a : R) : Trace R :=
  ([(nov, nol, a)], visibility nov nol a).

(** The body of the loop of [calculate_dfg] for sample [i], with the
    accumulator [r] passed explicitly. *)
Definition sample (nov a : R) (number_of_samples : Z) (v : vec3)
    (i : Z) (r : R * R) : Trace (R * R) :=
  u <- trace_lift (hammersley i number_of_samples) ;;
  h <- trace_lift (hemisphere_importance_sample_dggx u a) ;;
  let l := vsub (vscale 2 (vscale (dot v h) h)) v in
  let voh := saturate (dot v h) in
  let nol := saturate (vz l) in
  let noh := saturate (vz h) in
  if Rlt_dec 0 nol then
    g <- call_visibility nov nol a ;;
    q <- trace_lift (py_div voh noh) ;;
    let vis := g * nol * q in
    let fc := (1 - voh) ^ 5 in
    ret (fst r + vis * fc, snd r + vis)
  else ret r.

Definition calculate_dfg (nov a : R) (number_of_samples : Z)
    : Trace (R * R) :=
  x <- trace_lift (py_sqrt (1 - nov * nov)) ;;
  let v := Vec3 x 0 nov in
  r <- for_each (range number_of_samples)
         (sample nov a number_of_samples v) (0, 0) ;;
  k <- trace_lift (py_div 4 (IZR number_of_samples)) ;;
  ret (fst r * k, snd r * k).

(** A command-line value as [argparse] stores it: the integer default, or
    the text given on the command line when the option has no [type]. *)
Inductive arg_value : Type :=
| ArgInt (n : Z)
| ArgStr (s : string).

(** How an f-string renders [{value}]. *)
Definition format_value (v : arg_value) : string :=
  match v with
  | ArgInt n => NilZero.string_of_int (Z.to_int n)
  | ArgStr s => s
  end.

Definition newline : string := String "010"%char EmptyString.

(** [f'P6\n{resolution} {resolution}\n255\n'] *)
Definition ppm_header (resolution : arg_value) : string :=
  ("P6" ++ newline ++ format_value resolution ++ " "
        ++ format_value resolution ++ newline ++ "255" ++ newline)%string.

Section Output.

(** [numpy.array(x, dtype=numpy.float16).tobytes()] for one element; the
    half-precision encoding belongs to NumPy and is left abstract. *)
Variable float16_bytes : R -> list byte.

(** The binary64 rounding of a real number.  The product on line 104 is
    rounded before [int] truncates it, and the byte depends on it. *)
Variable round : R -> R.

Definition write_dfg (dfg : list R) (file_format : string) : File unit :=
  if negb (Nat.eqb (List.length dfg) 2) then file_lift None
  else if String.eqb file_format "raw" then
    fp_write (List.concat (map float16_bytes dfg))
  else if String.eqb file_format "ppm" then
    packed <- file_lift (struct_pack_BBB
                (map (fun c => py_int (round (saturate c * 255))) dfg
                 ++ [0%Z])) ;;
    fp_write packed
  else ret tt.

(** The body of the inner loop of [main] for texel [(s, t)]. *)
Definition texel (resolution samples : Z) (file_format : string)
    (t s : Z) : File unit :=
  nov <- file_lift (py_div (IZR s + 0.5) (IZR resolution)) ;;
  perceptual_roughness <-
    file_lift (py_div (IZR t + 0.5) (IZR resolution)) ;;
  let a := perceptual_roughness ^ 2 in
  dfg <- file_lift (snd (calculate_dfg nov a samples)) ;;
  write_dfg [fst dfg; snd dfg] file_format.

(** [main], from the opening of the output file on, as a function of the
    parsed arguments. *)
Definition main (resolution : arg_value) (samples : Z)
    (file_format : string) : File unit :=
  (if String.eqb file_format "ppm"
   then fp_write (list_byte_of_string (ppm_header resolution))
   else ret tt) ;;;
  match resolution with
  | ArgStr _ => file_lift None
  | ArgInt n =>
      for_each (range n)
        (fun t _ =>
           for_each (range n)
             (fun s _ => texel n samples file_format t s) tt) tt
  end.

End Output.

(** A file computation that only appends to what is already written. *)
Definition appends {A : Type} (m : File A) : Prop :=
  forall fp : list byte, exists rest : list byte, fst (m fp) = (fp ++ rest)%list.

(** A file computation that appends [j] groups of [k] bytes, never more
    than [c] of them and exactly [c] when it ends without error. *)
Definition writes_groups (k c : nat) (m : File unit) : Prop :=
  forall fp : list byte, exists (rest : list byte) (j : nat),
    fst (m fp) = (fp ++ rest)%list
    /\ List.length rest = (k * j)%nat /\ (j <= c)%nat
    /\ (snd (m fp) = Some tt -> j = c).

(** The value of a byte as an integer. *)
Definition byte_value (b : byte) : Z := Z.of_N (Byte.to_N b).

(** What the statements about bytes use of binary64 rounding: it keeps
    order and is exact on 0 and 255. *)
Definition rounding (round : R -> R) : Prop :=
  (forall x y : R, x <= y -> round x <= round y)
  /\ round 0 = 0 /\ round 255 = 255.

(** ** The arithmetic of the sampler in binary64 *)

Module B64.

Import PrimFloat.
Local Open Scope float_scope.

(** [tof = 0.5 / 0x80000000] *)
Definition tof : float := 0.5 / 2147483648.

(** The second coordinate of [hammersley], [bits * tof], for a value of
    [bits] given as a 63-bit integer. *)
Definition u1_of_bits (bits : PrimInt63.int) : float := of_uint63 bits * tof.

(** Line 44. *)
Definition cos_theta2 (u1 a : float) : float :=
  (1 - u1) / (1 + (a + 1) * ((a - 1) * u1)).

(** [math.sqrt]; raises [ValueError] on a negative argument. *)
Definition py_sqrt (x : float) : option float :=
  if x <? 0 then None else Some (sqrt x).

(** Lines 44-46: [(cos_theta, sin_theta)], or the failure of a square
    root.  The second sample coordinate is a [float64], so the division
    does not raise. *)
Definition sampler_angles (u1 a : float) : option (float * float) :=
  let c2 := cos_theta2 u1 a in
  match py_sqrt c2 with
  | Some cos_theta =>
      match py_sqrt (1 - c2) with
      | Some sin_theta => Some (cos_theta, sin_theta)
      | None => None
      end
  | None => None
  end.

End B64.

(** ** Reference definitions, after the specification *)

Module U32.

(** Exact 32-bit unsigned arithmetic: every result is reduced modulo
    [2^32]. *)
Definition u32 (x : Z) : Z := x mod 2 ^ 32.
Definition shl (x n : Z) : Z := u32 (Z.shiftl x n).
Definition shr (x n : Z) : Z := Z.shiftr (u32 x) n.
Definition or (x y : Z) : Z := u32 (Z.lor x y).
Definition and (x y : Z) : Z := u32 (Z.land x y).

Definition step1 (bits : Z) : Z := or (shl bits 16) (shr bits 16).
Definition step2 (bits : Z) : Z :=
  or (shl (and bits 0x55555555) 1) (shr (and bits 0xAAAAAAAA) 1).
Definition step3 (bits : Z) : Z :=
  or (shl (and bits 0x33333333) 2) (shr (and bits 0xCCCCCCCC) 2).
Definition step4 (bits : Z) : Z :=
  or (shl (and bits 0x0F0F0F0F) 4) (shr (and bits 0xF0F0F0F0) 4).
Definition step5 (bits : Z) : Z :=
  or (shl (and bits 0x00FF00FF) 8) (shr (and bits 0xFF00FF00) 8).

End U32.

(** [bitrev w x]: the low [w] bits of [x] in reverse order, bit [0] of [x]
    becoming bit [w - 1]. *)
Fixpoint bitrev (w : nat) (x : Z) : Z :=
  match w with
  | O => 0
  | S w' => (2 ^ Z.of_nat w' * (x mod 2) + bitrev w' (x / 2))%Z
  end.

(** The exact 32-bit unsigned bit reversal. *)
Definition rev32 (i : Z) : Z := bitrev 32 i.

(** Sum of a list of reals. *)
Definition Rsum (l : list R) : R := fold_right Rplus 0 l.

Module Reference.

(** The fixed view direction. *)
Definition view (nov : R) : vec3 := Vec3 (sqrt (1 - nov * nov)) 0 nov.

(** The sample point [(u0, u1)] of index [i]. *)
Definition point (i n : Z) : R * R :=
  (IZR i / IZR n, IZR (hammersley_bits i) * tof).

(** The GGX importance sample of section 4.2. *)
Definition ggx_sample (u : R * R) (a : R) : vec3 :=
  let phi := 2 * PI * fst u in
  let cos_theta2 := (1 - snd u) / (1 + (a + 1) * ((a - 1) * snd u)) in
  let cos_theta := sqrt cos_theta2 in
  let sin_theta := sqrt (1 - cos_theta2) in
  Vec3 (sin_theta * cos phi) (sin_theta * sin phi) cos_theta.

(** The visibility term of section 4.3. *)
Definition vis_term (nov nol a : R) : R :=
  let a2 := a * a in
  let ggxl := nov * sqrt ((nol - nol * a2) * nol + a2) in
  let ggxv := nol * sqrt ((nov - nov * a2) * nov + a2) in
  0.5 / (ggxv + ggxl).

(** What sample [i] adds to the two channels. *)
Definition contribution (nov a : R) (n i : Z) : R * R :=
  let v := view nov in
  let h := ggx_sample (point i n) a in
  let l := vsub (vscale (2 * dot v h) h) v in
  let voh := saturate (dot v h) in
  let nol := saturate (vz l) in
  let noh := saturate (vz h) in
  if Rlt_dec 0 nol then
    let vis := vis_term nov nol a in
    (vis * nol * (voh / noh) * (1 - voh) ^ 5, vis * nol * (voh / noh))
  else (0, 0).

(** The split sum: both channels accumulated over [i] in [[0, n)] and
    scaled by [4 / n]. *)
Definition split_sum (nov a : R) (n : Z) : R * R :=
  (Rsum (map (fun i => fst (contribution nov a n i)) (range n))
     * (4 / IZR n),
   Rsum (map (fun i => snd (contribution nov a n i)) (range n))
     * (4 / IZR n)).

End Reference.

(** ** Bit-level facts *)

Local Open Scope Z_scope.

(** Every bit index of a 32-bit word is one of the numerals below 32. *)
Lemma index_ind (P : Z -> Prop) (n : Z) :
  0 <= n < 32 -> (forall k : nat, (k < 32)%nat -> P (Z.of_nat k)) -> P n.
Proof.
  intros Hn HP. rewrite <- (Z2Nat.id n) by lia. apply HP. lia.
Qed.

(** Peels [fuel] numerals off the natural number [k]. *)
Ltac peel_nat k fuel :=
  lazymatch fuel with
  | O => idtac
  | S ?fuel' =>
      destruct k as [| k];
      [cbn [Z.of_nat Pos.of_succ_nat Pos.succ] | peel_nat k fuel']
  end.

(** Splits a goal about a bit index [n], known to lie in [[0, 32)], into
    its 32 cases. *)
Ltac index_cases n :=
  let H := fresh "Hidx" in
  assert (H : (0 <= n < 32)%Z) by lia;
  pattern n; refine (index_ind _ n H _);
  let k := fresh "k" in
  let Hk := fresh "Hk" in
  intros k Hk; peel_nat k 32%nat; [.. | exfalso; lia].

(** A non-negative integer whose bits from [w] up are clear is below
    [2^w]. *)
Lemma below_pow2_of_bits (w x : Z) :
  0 <= w -> 0 <= x ->
  (forall n, w <= n -> Z.testbit x n = false) -> x < 2 ^ w.
Proof.
  intros Hw Hx Hbits.
  assert (E : x mod 2 ^ w = x).
  { apply Z.bits_inj'. intros n Hn.
    destruct (Z_lt_le_dec n w) as [Hlt | Hge].
    - apply Z.mod_pow2_bits_low. lia.
    - rewrite Z.mod_pow2_bits_high by lia. symmetry. now apply Hbits. }
  rewrite <- E. apply Z.mod_pos_bound. apply Z.pow_pos_nonneg; lia.
Qed.

Lemma bits_above_pow2 (w x n : Z) :
  0 <= x < 2 ^ w -> w <= n -> Z.testbit x n = false.
Proof.
  intros Hx Hn.
  destruct (Z_lt_le_dec w 0) as [Hneg | Hw].
  - rewrite Z.pow_neg_r in Hx by lia. lia.
  - rewrite <- (Z.mod_small x (2 ^ w)) by assumption.
    apply Z.mod_pow2_bits_high. lia.
Qed.

Lemma bitrev_range (w : nat) (x : Z) : 0 <= bitrev w x < 2 ^ Z.of_nat w.
Proof.
  revert x. induction w as [| w IH]; intros x.
  - simpl. lia.
  - cbn [bitrev]. specialize (IH (x / 2)).
    rewrite Nat2Z.inj_succ, Z.pow_succ_r by lia.
    assert (0 <= x mod 2 < 2) by (apply Z.mod_pos_bound; lia).
    assert (0 < 2 ^ Z.of_nat w) by (apply Z.pow_pos_nonneg; lia).
    nia.
Qed.

Lemma bitrev_testbit (w : nat) (x n : Z) :
  0 <= n < Z.of_nat w ->
  Z.testbit (bitrev w x) n = Z.testbit x (Z.of_nat w - 1 - n).
Proof.
  revert x n. induction w as [| w IH]; intros x n Hn.
  - simpl in Hn. lia.
  - cbn [bitrev]. rewrite Nat2Z.inj_succ in *.
    pose proof (bitrev_range w (x / 2)) as Hr.
    assert (Hp : 0 < 2 ^ Z.of_nat w) by (apply Z.pow_pos_nonneg; lia).
    destruct (Z_lt_le_dec n (Z.of_nat w)) as [Hlt | Hge].
    + rewrite <- (Z.mod_pow2_bits_low _ (Z.of_nat w)) by lia.
      rewrite Z.add_comm, Z.mul_comm, Z.mod_add by lia.
      rewrite Z.mod_small by lia.
      rewrite IH by lia.
      rewrite <- Z.div2_div, Z.div2_spec, Z.shiftr_spec by lia.
      f_equal. lia.
    + assert (n = Z.of_nat w) by lia. subst n.
      replace (Z.succ (Z.of_nat w) - 1 - Z.of_nat w) with 0 by lia.
      rewrite <- (Z.add_0_l (Z.of_nat w)) at 2.
      rewrite <- Z.div_pow2_bits by lia.
      rewrite Z.add_comm, Z.mul_comm, Z.div_add by lia.
      rewrite Z.div_small by lia. rewrite Z.add_0_l.
      change (x mod 2) with (x mod 2 ^ 1).
      apply Z.mod_pow2_bits_low. lia.
Qed.

Lemma bitrev_testbit_high (w : nat) (x n : Z) :
  Z.of_nat w <= n -> Z.testbit (bitrev w x) n = false.
Proof.
  intros Hn. apply (bits_above_pow2 (Z.of_nat w)); [apply bitrev_range | lia].
Qed.

(** Bit specifications without side conditions, for rewriting. *)
Lemma shiftl_bit (a s n : Z) :
  Z.testbit (Z.shiftl a s) n = negb (n <? 0) && Z.testbit a (n - s).
Proof.
  destruct (Z.ltb_spec n 0) as [Hneg | Hpos]; cbn [negb andb].
  - now apply Z.testbit_neg_r.
  - now apply Z.shiftl_spec.
Qed.

Lemma shiftr_bit (a s n : Z) :
  Z.testbit (Z.shiftr a s) n = negb (n <? 0) && Z.testbit a (n + s).
Proof.
  destruct (Z.ltb_spec n 0) as [Hneg | Hpos]; cbn [negb andb].
  - now apply Z.testbit_neg_r.
  - now apply Z.shiftr_spec.
Qed.

Lemma u32_bit (x n : Z) :
  Z.testbit (U32.u32 x) n = (n <? 32) && Z.testbit x n.
Proof.
  unfold U32.u32.
  destruct (Z.ltb_spec n 32) as [Hlt | Hge]; cbn [andb].
  - destruct (Z_lt_le_dec n 0) as [Hneg | Hpos].
    + now rewrite !Z.testbit_neg_r.
    + apply Z.mod_pow2_bits_low. lia.
  - apply Z.mod_pow2_bits_high. lia.
Qed.

Lemma u32_small (x : Z) : 0 <= x < 2 ^ 32 -> U32.u32 x = x.
Proof. intros Hx. now apply Z.mod_small. Qed.

(** Evaluates closed bit indices, the bits of the masks and the index
    comparisons. *)
Ltac eval_indices :=
  repeat match goal with
  | |- context [Z.testbit ?a ?k] =>
      lazymatch k with
      | Z0 => fail | Zpos _ => fail | Zneg _ => fail
      | _ => let k' := eval vm_compute in k in change k with k'
      end
  end;
  repeat match goal with
  | |- context [Z.testbit ?a (Zneg ?p)] =>
      change (Z.testbit a (Zneg p)) with false
  | |- context [Z.testbit (Zpos ?m) ?k] =>
      let v := eval vm_compute in (Z.testbit (Zpos m) k) in
      change (Z.testbit (Zpos m) k) with v
  | |- context [Z.ltb ?x ?y] =>
      let v := eval vm_compute in (Z.ltb x y) in
      change (Z.ltb x y) with v
  end.

(** Decides an equation between bits of shift-and-mask terms at a closed
    index. *)
Ltac bitblast :=
  repeat (progress rewrite ?Z.lor_spec, ?Z.land_spec, ?shiftl_bit,
                           ?shiftr_bit, ?u32_bit);
  eval_indices; btauto.

(** Each step exchanges neighbouring blocks of bits: the bit at index [n]
    comes from the index that differs from [n] in one binary digit. *)
Lemma step1_bit (b n : Z) :
  0 <= b < 2 ^ 32 -> 0 <= n < 32 ->
  Z.testbit (step1 b) n = Z.testbit b (Z.lxor n 16).
Proof.
  intros Hb Hn. unfold step1. rewrite <- (u32_small b Hb).
  index_cases n; bitblast.
Qed.

Lemma step2_bit (b n : Z) :
  0 <= n < 32 -> Z.testbit (step2 b) n = Z.testbit b (Z.lxor n 1).
Proof. intros Hn. unfold step2. index_cases n; bitblast. Qed.

Lemma step3_bit (b n : Z) :
  0 <= n < 32 -> Z.testbit (step3 b) n = Z.testbit b (Z.lxor n 2).
Proof. intros Hn. unfold step3. index_cases n; bitblast. Qed.

Lemma step4_bit (b n : Z) :
  0 <= n < 32 -> Z.testbit (step4 b) n = Z.testbit b (Z.lxor n 4).
Proof. intros Hn. unfold step4. index_cases n; bitblast. Qed.

Lemma step5_bit (b n : Z) :
  0 <= n < 32 -> Z.testbit (step5 b) n = Z.testbit b (Z.lxor n 8).
Proof. intros Hn. unfold step5. index_cases n; bitblast. Qed.

(** A masked exchange step yields a 32-bit value, whatever its input. *)
Lemma mask_swap_range (b m1 m2 s : Z) :
  0 <= s -> 0 <= m1 < 2 ^ (32 - s) -> 0 <= m2 < 2 ^ 32 ->
  0 <= Z.lor (Z.shiftl (Z.land b m1) s) (Z.shiftr (Z.land b m2) s)
    < 2 ^ 32.
Proof.
  intros Hs Hm1 Hm2.
  assert (Hnn : 0 <= Z.lor (Z.shiftl (Z.land b m1) s)
                           (Z.shiftr (Z.land b m2) s)).
  { apply Z.lor_nonneg. split.
    - apply Z.shiftl_nonneg, Z.land_nonneg. right. lia.
    - apply Z.shiftr_nonneg, Z.land_nonneg. right. lia. }
  split; [exact Hnn |].
  apply below_pow2_of_bits; [lia | exact Hnn |].
  intros n Hn.
  rewrite Z.lor_spec, Z.shiftl_spec, Z.shiftr_spec, !Z.land_spec by lia.
  rewrite (bits_above_pow2 (32 - s) m1) by lia.
  rewrite (bits_above_pow2 32 m2) by lia.
  now rewrite !andb_false_r.
Qed.

Lemma step2_range (b : Z) : 0 <= step2 b < 2 ^ 32.
Proof. apply mask_swap_range; cbn; lia. Qed.
Lemma step3_range (b : Z) : 0 <= step3 b < 2 ^ 32.
Proof. apply mask_swap_range; cbn; lia. Qed.
Lemma step4_range (b : Z) : 0 <= step4 b < 2 ^ 32.
Proof. apply mask_swap_range; cbn; lia. Qed.
Lemma step5_range (b : Z) : 0 <= step5 b < 2 ^ 32.
Proof. apply mask_swap_range; cbn; lia. Qed.

(** The result of [hammersley]'s bit manipulation is a 32-bit value for
    every input. *)
Lemma hammersley_bits_range (i : Z) : 0 <= hammersley_bits i < 2 ^ 32.
Proof. unfold hammersley_bits. apply step5_range. Qed.

(** The unmasked first step stays below [2^48]. *)
Lemma step1_range (i : Z) : 0 <= i < 2 ^ 32 -> 0 <= step1 i < 2 ^ 48.
Proof.
  intros Hi. unfold step1.
  assert (Hnn : 0 <= Z.lor (Z.shiftl i 16) (Z.shiftr i 16)).
  { apply Z.lor_nonneg. split.
    - apply Z.shiftl_nonneg. lia.
    - apply Z.shiftr_nonneg. lia. }
  split; [exact Hnn |].
  apply below_pow2_of_bits; [lia | exact Hnn |].
  intros n Hn.
  rewrite Z.lor_spec, Z.shiftl_spec, Z.shiftr_spec by lia.
  rewrite !(bits_above_pow2 32 i) by lia. reflexivity.
Qed.

Lemma hammersley_steps_fit_int64 (i : Z) :
  0 <= i < 2 ^ 32 ->
  0 <= Z.shiftl i 16 < 2 ^ 63 /\
  0 <= step1 i < 2 ^ 63 /\
  0 <= step2 (step1 i) < 2 ^ 63 /\
  0 <= step3 (step2 (step1 i)) < 2 ^ 63 /\
  0 <= step4 (step3 (step2 (step1 i))) < 2 ^ 63 /\
  0 <= hammersley_bits i < 2 ^ 63.
Proof.
  intros Hi.
  pose proof (step1_range i Hi).
  pose proof (step2_range (step1 i)).
  pose proof (step3_range (step2 (step1 i))).
  pose proof (step4_range (step3 (step2 (step1 i)))).
  pose proof (hammersley_bits_range i).
  rewrite Z.shiftl_mul_pow2 by lia. lia.
Qed.

Lemma hammersley_bits_testbit (i n : Z) :
  0 <= i < 2 ^ 32 -> 0 <= n < 32 ->
  Z.testbit (hammersley_bits i) n = Z.testbit i (31 - n).
Proof.
  intros Hi Hn. unfold hammersley_bits. index_cases n.
  all: rewrite step5_bit, step4_bit, step3_bit, step2_bit, step1_bit
    by (assumption || (vm_compute; intuition congruence)).
  all: reflexivity.
Qed.

(** On 32-bit inputs the bit manipulation is the exact bit reversal. *)
Lemma hammersley_bits_rev32 (i : Z) :
  0 <= i < 2 ^ 32 -> hammersley_bits i = rev32 i.
Proof.
  intros Hi. apply Z.bits_inj'. intros n Hn. unfold rev32.
  destruct (Z_lt_le_dec n 32) as [Hlt | Hge].
  - rewrite hammersley_bits_testbit, bitrev_testbit by (cbn; lia).
    f_equal.
  - rewrite (bits_above_pow2 32 (hammersley_bits i))
      by (apply hammersley_bits_range || lia).
    now rewrite bitrev_testbit_high by (cbn; lia).
Qed.

(** From the second step on, a step sees only the low 32 bits of its
    input and computes what exact 32-bit arithmetic computes. *)
Lemma step1_u32 (i : Z) :
  0 <= i < 2 ^ 32 -> U32.step1 i = U32.u32 (step1 i).
Proof.
  intros Hi. unfold U32.step1, U32.or, U32.shl, U32.shr, step1.
  rewrite (u32_small i Hi).
  apply Z.bits_inj'. intros n Hn.
  rewrite !u32_bit, !Z.lor_spec, u32_bit.
  destruct (n <? 32); cbn [andb]; reflexivity.
Qed.

Lemma step2_u32 (b : Z) : step2 b = U32.step2 (U32.u32 b).
Proof.
  apply Z.bits_inj'. intros n Hn.
  destruct (Z_lt_le_dec n 32) as [Hlt | Hge].
  - unfold step2, U32.step2, U32.or, U32.and, U32.shl, U32.shr.
    index_cases n; bitblast.
  - rewrite (bits_above_pow2 32 (step2 b)) by (apply step2_range || lia).
    unfold U32.step2, U32.or. rewrite u32_bit.
    destruct (Z.ltb_spec n 32); [lia | reflexivity].
Qed.

Lemma step3_u32 (b : Z) : step3 b = U32.step3 (U32.u32 b).
Proof.
  apply Z.bits_inj'. intros n Hn.
  destruct (Z_lt_le_dec n 32) as [Hlt | Hge].
  - unfold step3, U32.step3, U32.or, U32.and, U32.shl, U32.shr.
    index_cases n; bitblast.
  - rewrite (bits_above_pow2 32 (step3 b)) by (apply step3_range || lia).
    unfold U32.step3, U32.or. rewrite u32_bit.
    destruct (Z.ltb_spec n 32); [lia | reflexivity].
Qed.

Lemma step4_u32 (b : Z) : step4 b = U32.step4 (U32.u32 b).
Proof.
  apply Z.bits_inj'. intros n Hn.
  destruct (Z_lt_le_dec n 32) as [Hlt | Hge].
  - unfold step4, U32.step4, U32.or, U32.and, U32.shl, U32.shr.
    index_cases n; bitblast.
  - rewrite (bits_above_pow2 32 (step4 b)) by (apply step4_range || lia).
    unfold U32.step4, U32.or. rewrite u32_bit.
    destruct (Z.ltb_spec n 32); [lia | reflexivity].
Qed.

Lemma step5_u32 (b : Z) : step5 b = U32.step5 (U32.u32 b).
Proof.
  apply Z.bits_inj'. intros n Hn.
  destruct (Z_lt_le_dec n 32) as [Hlt | Hge].
  - unfold step5, U32.step5, U32.or, U32.and, U32.shl, U32.shr.
    index_cases n; bitblast.
  - rewrite (bits_above_pow2 32 (step5 b)) by (apply step5_range || lia).
    unfold U32.step5, U32.or. rewrite u32_bit.
    destruct (Z.ltb_spec n 32); [lia | reflexivity].
Qed.


(** ** Bit reversal as a permutation *)

Lemma bitrev_zero (w : nat) : bitrev w 0 = 0.
Proof.
  induction w as [| w IH]; cbn [bitrev]; [reflexivity |].
  change (0 / 2) with 0. rewrite IH. change (0 mod 2) with 0. lia.
Qed.

(** Reversing within a wider word shifts the narrow reversal up. *)
Lemma bitrev_shift (d w : nat) (x : Z) :
  0 <= x < 2 ^ Z.of_nat w ->
  bitrev (w + d) x = 2 ^ Z.of_nat d * bitrev w x.
Proof.
  revert x. induction w as [| w IH]; intros x Hx.
  - cbn in Hx. assert (x = 0) by lia. subst x.
    rewrite bitrev_zero. cbn [bitrev]. lia.
  - cbn [Nat.add bitrev].
    rewrite Nat2Z.inj_succ, Z.pow_succ_r in Hx by lia.
    rewrite IH by (split; [apply Z.div_pos | apply Z.div_lt_upper_bound]; lia).
    rewrite Nat2Z.inj_add, Z.pow_add_r by lia. ring.
Qed.

Lemma bitrev_involutive (w : nat) (x : Z) :
  0 <= x < 2 ^ Z.of_nat w -> bitrev w (bitrev w x) = x.
Proof.
  intros Hx. apply Z.bits_inj'. intros n Hn.
  destruct (Z_lt_le_dec n (Z.of_nat w)) as [Hlt | Hge].
  - rewrite !bitrev_testbit by lia. f_equal. lia.
  - rewrite bitrev_testbit_high by lia.
    symmetry. apply (bits_above_pow2 (Z.of_nat w)); assumption.
Qed.

Lemma range_In (j n : Z) : In j (range n) <-> 0 <= j < n.
Proof.
  unfold range. rewrite in_map_iff. split.
  - intros (k & <- & Hk). apply in_seq in Hk. lia.
  - intros Hj. exists (Z.to_nat j). split; [lia |]. apply in_seq. lia.
Qed.

Lemma range_NoDup (n : Z) : NoDup (range n).
Proof.
  unfold range. apply NoDup_map_NoDup_ForallPairs; [| apply seq_NoDup].
  intros x y _ _ E. lia.
Qed.

Lemma range_length (n : Z) : List.length (range n) = Z.to_nat n.
Proof. unfold range. now rewrite length_map, length_seq. Qed.

Lemma bitrev_permutes (w : nat) :
  Permutation (map (bitrev w) (range (2 ^ Z.of_nat w)))
              (range (2 ^ Z.of_nat w)).
Proof.
  apply NoDup_Permutation_bis.
  - apply NoDup_map_NoDup_ForallPairs; [| apply range_NoDup].
    intros x y Hx Hy E. apply range_In in Hx, Hy.
    rewrite <- (bitrev_involutive w x), <- (bitrev_involutive w y), E
      by assumption.
    reflexivity.
  - now rewrite length_map.
  - intros j Hj. apply in_map_iff in Hj. destruct Hj as (i & <- & _).
    apply range_In, bitrev_range.
Qed.

(** Below [2^k] the 32-bit reversal is the [k]-bit reversal shifted up by
    [32 - k]. *)
Lemma hammersley_bits_low (k : nat) (i : Z) :
  (k <= 32)%nat -> 0 <= i < 2 ^ Z.of_nat k ->
  hammersley_bits i = 2 ^ Z.of_nat (32 - k) * bitrev k i.
Proof.
  intros Hk Hi.
  assert (2 ^ Z.of_nat k <= 2 ^ 32) by (apply Z.pow_le_mono_r; lia).
  rewrite hammersley_bits_rev32 by lia. unfold rev32.
  replace 32%nat with (k + (32 - k))%nat at 1 by lia.
  now apply bitrev_shift.
Qed.

(** ** Real-number primitives *)

Local Open Scope R_scope.

Lemma py_div_some (x y : R) : y <> 0 -> py_div x y = Some (x / y).
Proof. intros Hy. unfold py_div. now destruct (Req_dec_T y 0). Qed.

Lemma py_div_zero (x : R) : py_div x 0 = None.
Proof. unfold py_div. now destruct (Req_dec_T 0 0). Qed.

Lemma py_sqrt_some (x : R) : 0 <= x -> py_sqrt x = Some (sqrt x).
Proof. intros Hx. unfold py_sqrt. now destruct (Rle_dec 0 x). Qed.

Lemma saturate_range (x : R) : 0 <= saturate x <= 1.
Proof.
  unfold saturate, Rmin, Rmax.
  destruct (Rle_dec x 0); destruct (Rle_dec _ 1); lra.
Qed.

Lemma saturate_pos (x : R) : 0 < x -> 0 < saturate x.
Proof.
  intros Hx. unfold saturate, Rmin, Rmax.
  destruct (Rle_dec x 0); destruct (Rle_dec _ 1); lra.
Qed.

Lemma saturate_id (x : R) : 0 <= x <= 1 -> saturate x = x.
Proof.
  intros Hx. unfold saturate, Rmin, Rmax.
  destruct (Rle_dec x 0); destruct (Rle_dec _ 1); lra.
Qed.

Lemma tof_pow2 : tof = / IZR (2 ^ 32).
Proof. unfold tof. change (2 ^ 32)%Z with 4294967296%Z. lra. Qed.

(** The second coordinate is the reversed index over [2^32]. *)
Lemma hammersley_u1 (i : Z) :
  IZR (hammersley_bits i) * tof = IZR (hammersley_bits i) / IZR (2 ^ 32).
Proof. now rewrite tof_pow2. Qed.

Lemma hammersley_u1_range (i : Z) :
  0 <= IZR (hammersley_bits i) * tof < 1.
Proof.
  pose proof (hammersley_bits_range i) as [Hlo Hhi].
  apply IZR_le in Hlo. apply IZR_lt in Hhi.
  change (2 ^ 32)%Z with 4294967296%Z in Hhi.
  unfold tof. lra.
Qed.

Lemma np_int64_some (z : Z) :
  (- 2 ^ 63 <= z < 2 ^ 63)%Z -> np_int64 z = Some z.
Proof.
  intros Hz. unfold np_int64.
  replace ((- 2 ^ 63 <=? z)%Z && (z <? 2 ^ 63)%Z) with true; [reflexivity |].
  symmetry. apply andb_true_intro. split; [apply Z.leb_le | apply Z.ltb_lt];
    lia.
Qed.

Lemma np_int64_none (z : Z) :
  ~ (- 2 ^ 63 <= z < 2 ^ 63)%Z -> np_int64 z = None.
Proof.
  intros Hz. unfold np_int64.
  destruct (Z.leb_spec (- 2 ^ 63) z); destruct (Z.ltb_spec z (2 ^ 63));
    cbn [andb]; try reflexivity.
  exfalso. apply Hz. lia.
Qed.

(** [hammersley] returns exactly for the indices whose shift by 16 fits
    [int64], given a sample count other than zero. *)
Lemma hammersley_some (i n : Z) :
  (- 2 ^ 47 <= i < 2 ^ 47)%Z -> n <> 0%Z ->
  hammersley i n = Some (Reference.point i n).
Proof.
  intros Hi Hn. unfold hammersley, Reference.point.
  rewrite (np_int64_some i) by lia.
  rewrite np_int64_some by (rewrite Z.shiftl_mul_pow2; lia).
  cbn [bind option_monad ret].
  rewrite py_div_some; [reflexivity |].
  intros E. apply eq_IZR in E. contradiction.
Qed.

Lemma hammersley_overflow (i n : Z) :
  ~ (- 2 ^ 47 <= i < 2 ^ 47)%Z -> hammersley i n = None.
Proof.
  intros Hi. unfold hammersley.
  destruct (np_int64 i) as [z |]; cbn [bind option_monad]; [| reflexivity].
  rewrite np_int64_none; [reflexivity |].
  rewrite Z.shiftl_mul_pow2 by lia. lia.
Qed.

Lemma hammersley_inv (i n : Z) (u : R * R) :
  hammersley i n = Some u ->
  u = Reference.point i n /\ (- 2 ^ 47 <= i < 2 ^ 47)%Z /\ n <> 0%Z.
Proof.
  intros H.
  assert (Hi : (- 2 ^ 47 <= i < 2 ^ 47)%Z).
  { destruct (Z_le_dec (- 2 ^ 47) i) as [Hlo | Hlo];
      [destruct (Z_lt_dec i (2 ^ 47)) as [Hhi | Hhi]; [lia |] |];
      rewrite hammersley_overflow in H by lia; discriminate. }
  assert (Hn : n <> 0%Z).
  { intros ->. unfold hammersley in H.
    rewrite (np_int64_some i) in H by lia.
    rewrite np_int64_some in H by (rewrite Z.shiftl_mul_pow2; lia).
    cbn [bind option_monad] in H. rewrite py_div_zero in H. discriminate. }
  rewrite hammersley_some in H by assumption.
  injection H as <-. now repeat split.
Qed.

Lemma Rsum_le (f g : Z -> R) (xs : list Z) :
  (forall x, In x xs -> f x <= g x) ->
  Rsum (map f xs) <= Rsum (map g xs).
Proof.
  induction xs as [| x xs IH]; intros H; cbn [map Rsum fold_right].
  - lra.
  - assert (f x <= g x) by (apply H; now left).
    assert (Rsum (map f xs) <= Rsum (map g xs))
      by (apply IH; intros y Hy; apply H; now right).
    unfold Rsum in *. lra.
Qed.

Lemma Rsum_nonneg (f : Z -> R) (xs : list Z) :
  (forall x, In x xs -> 0 <= f x) -> 0 <= Rsum (map f xs).
Proof.
  induction xs as [| x xs IH]; intros H; cbn [map Rsum fold_right].
  - lra.
  - assert (0 <= f x) by (apply H; now left).
    assert (0 <= Rsum (map f xs))
      by (apply IH; intros y Hy; apply H; now right).
    unfold Rsum in *. lra.
Qed.

(** ** The importance sampler *)

Section Sampler.

Variables u0 u1 a : R.
Hypothesis u1_range : 0 <= u1 < 1.
Hypothesis a_range : 0 < a <= 1.

Lemma dggx_divisor_range : 0 < 1 + (a + 1) * ((a - 1) * u1) <= 1.
Proof.
  assert (0 <= a * a <= 1) by nra.
  replace (1 + (a + 1) * ((a - 1) * u1)) with (1 - (1 - a * a) * u1)
    by ring.
  nra.
Qed.

Lemma dggx_cos_theta2_range :
  0 < (1 - u1) / (1 + (a + 1) * ((a - 1) * u1)) <= 1.
Proof.
  pose proof dggx_divisor_range as [Hpos Hle].
  set (d := 1 + (a + 1) * ((a - 1) * u1)) in *.
  split.
  - apply Rdiv_lt_0_compat; lra.
  - apply (Rmult_le_reg_r d); [exact Hpos |].
    unfold Rdiv. rewrite Rmult_assoc, Rinv_l, Rmult_1_r, Rmult_1_l by lra.
    unfold d. nra.
Qed.

Lemma dggx_some :
  hemisphere_importance_sample_dggx (u0, u1) a
  = Some (Reference.ggx_sample (u0, u1) a).
Proof.
  pose proof dggx_divisor_range as Hd.
  pose proof dggx_cos_theta2_range as Hc.
  unfold hemisphere_importance_sample_dggx, Reference.ggx_sample.
  cbn [fst snd bind option_monad ret].
  rewrite py_div_some by lra.
  rewrite py_sqrt_some by lra.
  rewrite py_sqrt_some by lra.
  reflexivity.
Qed.

Lemma ggx_sample_unit : norm2 (Reference.ggx_sample (u0, u1) a) = 1.
Proof.
  pose proof dggx_cos_theta2_range as Hc.
  unfold norm2, Reference.ggx_sample. cbn [fst snd vx vy vz].
  set (c2 := (1 - u1) / (1 + (a + 1) * ((a - 1) * u1))) in *.
  set (phi := 2 * PI * u0).
  assert (Hs : sqrt (1 - c2) * sqrt (1 - c2) = 1 - c2)
    by (apply sqrt_sqrt; lra).
  assert (Hq : sqrt c2 * sqrt c2 = c2) by (apply sqrt_sqrt; lra).
  pose proof (sin2_cos2 phi) as Ht. unfold Rsqr in Ht.
  replace (sqrt (1 - c2) * cos phi * (sqrt (1 - c2) * cos phi)
           + sqrt (1 - c2) * sin phi * (sqrt (1 - c2) * sin phi)
           + sqrt c2 * sqrt c2)
    with (sqrt (1 - c2) * sqrt (1 - c2)
            * (sin phi * sin phi + cos phi * cos phi)
          + sqrt c2 * sqrt c2) by ring.
  rewrite Hs, Hq, Ht. ring.
Qed.

Lemma ggx_sample_z_pos : 0 < vz (Reference.ggx_sample (u0, u1) a).
Proof.
  pose proof dggx_cos_theta2_range as Hc.
  unfold Reference.ggx_sample. cbn [fst snd vz].
  apply sqrt_lt_R0. lra.
Qed.

End Sampler.

(** ** The visibility term *)

Lemma vis_radicand_pos (x a : R) :
  0 < a <= 1 -> 0 < (x - x * (a * a)) * x + a * a.
Proof.
  intros Ha. assert (0 < a * a <= 1) by nra.
  replace ((x - x * (a * a)) * x + a * a)
    with ((1 - a * a) * (x * x) + a * a) by ring.
  assert (0 <= x * x) by nra. nra.
Qed.

Lemma vis_divisor_pos (nov nol a : R) :
  0 < nov -> 0 <= nol -> 0 < a <= 1 ->
  0 < nol * sqrt ((nov - nov * (a * a)) * nov + a * a)
      + nov * sqrt ((nol - nol * (a * a)) * nol + a * a).
Proof.
  intros Hnov Hnol Ha.
  pose proof (sqrt_lt_R0 _ (vis_radicand_pos nov a Ha)).
  pose proof (sqrt_lt_R0 _ (vis_radicand_pos nol a Ha)).
  nra.
Qed.

Lemma visibility_some (nov nol a : R) :
  0 < nov -> 0 <= nol -> 0 < a <= 1 ->
  visibility nov nol a = Some (Reference.vis_term nov nol a).
Proof.
  intros Hnov Hnol Ha.
  pose proof (vis_radicand_pos nov a Ha).
  pose proof (vis_radicand_pos nol a Ha).
  pose proof (vis_divisor_pos nov nol a Hnov Hnol Ha).
  unfold visibility, visibility_ggxl, visibility_ggxv, Reference.vis_term.
  cbn [bind option_monad ret].
  rewrite !py_sqrt_some by lra. rewrite py_div_some by lra.
  reflexivity.
Qed.

Lemma vis_term_pos (nov nol a : R) :
  0 < nov -> 0 <= nol -> 0 < a <= 1 -> 0 < Reference.vis_term nov nol a.
Proof.
  intros Hnov Hnol Ha. unfold Reference.vis_term.
  apply Rdiv_lt_0_compat; [lra | now apply vis_divisor_pos].
Qed.

(** ** The integrator *)

Lemma trace_bind_lift {A B : Type} (x : A) (f : A -> Trace B) :
  (y <- trace_lift (Some x) ;; f y) = f x.
Proof.
  unfold trace_lift. cbn [bind trace_monad].
  now destruct (f x) as [log r].
Qed.

Lemma trace_bind_value {A B : Type} (m : Trace A) (f : A -> Trace B) (x : A) :
  snd m = Some x -> snd (y <- m ;; f y) = snd (f x).
Proof.
  destruct m as [log [y |]]; cbn [snd]; intros E; [| discriminate].
  injection E as ->. cbn [bind trace_monad].
  now destruct (f x) as [log' r].
Qed.

(** The reflected direction has the same third component whichever way the
    scaling is grouped. *)
Lemma reflect_z (d : R) (h v : vec3) :
  vz (vsub (vscale 2 (vscale d h)) v) = vz (vsub (vscale (2 * d) h) v).
Proof. cbn [vz vsub vscale]. ring. Qed.

Section Integrator.

Variables nov a : R.
Variable n : Z.
Hypothesis nov_range : 0 < nov <= 1.
Hypothesis a_range : 0 < a <= 1.
Hypothesis n_pos : (1 <= n)%Z.

Lemma sample_noh_pos (i : Z) :
  0 < saturate (vz (Reference.ggx_sample (Reference.point i n) a)).
Proof.
  apply saturate_pos. unfold Reference.point.
  apply ggx_sample_z_pos; [apply hammersley_u1_range | exact a_range].
Qed.

(** One pass through the loop body adds the sample's contribution to both
    accumulators, when the index fits. *)
Lemma sample_value (i : Z) (r : R * R) :
  (- 2 ^ 47 <= i < 2 ^ 47)%Z ->
  snd (sample nov a n (Reference.view nov) i r)
  = Some (fst r + fst (Reference.contribution nov a n i),
          snd r + snd (Reference.contribution nov a n i)).
Proof.
  intros Hi.
  pose proof (sample_noh_pos i) as Hnoh.
  unfold sample, Reference.contribution.
  rewrite hammersley_some by lia. rewrite trace_bind_lift.
  unfold Reference.point at 1.
  rewrite dggx_some by (apply hammersley_u1_range || exact a_range).
  rewrite trace_bind_lift.
  fold (Reference.point i n).
  set (v := Reference.view nov).
  set (h := Reference.ggx_sample (Reference.point i n) a) in *.
  cbv zeta. rewrite reflect_z.
  set (nol := saturate (vz (vsub (vscale (2 * dot v h) h) v))).
  destruct (Rlt_dec 0 nol) as [Hnol | Hnol].
  - unfold call_visibility.
    rewrite visibility_some by lra.
    rewrite py_div_some by lra.
    cbn [bind trace_monad trace_lift ret fst snd app]. reflexivity.
  - cbn [ret trace_monad fst snd]. f_equal. destruct r; cbn [fst snd].
    f_equal; ring.
Qed.

(** A pass whose index does not fit fails. *)
Lemma sample_overflow (v : vec3) (i : Z) (r : R * R) :
  ~ (- 2 ^ 47 <= i < 2 ^ 47)%Z -> snd (sample nov a n v i r) = None.
Proof.
  intros Hi. unfold sample. now rewrite hammersley_overflow.
Qed.

(** Whatever the loop returns is the accumulator plus the contributions of
    all its samples. *)
Lemma loop_returns (xs : list Z) (r r' : R * R) :
  snd (for_each xs (sample nov a n (Reference.view nov)) r) = Some r' ->
  r' = (fst r + Rsum (map (fun i =>
                 fst (Reference.contribution nov a n i)) xs),
        snd r + Rsum (map (fun i =>
                 snd (Reference.contribution nov a n i)) xs)).
Proof.
  revert r. induction xs as [| i xs IH]; intros r H.
  - cbn [for_each ret trace_monad snd] in H. injection H as <-.
    cbn [map Rsum fold_right]. destruct r; cbn [fst snd]. f_equal; ring.
  - cbn [for_each] in H.
    destruct (Z_le_dec (- 2 ^ 47) i) as [Hlo | Hlo];
      [destruct (Z_lt_dec i (2 ^ 47)) as [Hhi | Hhi] |].
    + rewrite (trace_bind_value _ _ _
                 (sample_value i r (conj Hlo Hhi))) in H.
      apply IH in H. rewrite H. cbn [fst snd map Rsum fold_right].
      f_equal; unfold Rsum; ring.
    + pose proof (sample_overflow (Reference.view nov) i r) as Hs.
      destruct (sample nov a n (Reference.view nov) i r) as [log [x |]];
        cbn [snd] in Hs; [discriminate Hs; lia |].
      cbn [bind trace_monad snd] in H. discriminate.
    + pose proof (sample_overflow (Reference.view nov) i r) as Hs.
      destruct (sample nov a n (Reference.view nov) i r) as [log [x |]];
        cbn [snd] in Hs; [discriminate Hs; lia |].
      cbn [bind trace_monad snd] in H. discriminate.
Qed.

Lemma loop_value (xs : list Z) (r : R * R) :
  (forall i, In i xs -> (- 2 ^ 47 <= i < 2 ^ 47)%Z) ->
  snd (for_each xs (sample nov a n (Reference.view nov)) r)
  = Some
      (fst r + Rsum (map (fun i => fst (Reference.contribution nov a n i)) xs),
       snd r + Rsum (map (fun i => snd (Reference.contribution nov a n i)) xs)).
Proof.
  revert r. induction xs as [| i xs IH]; intros r Hxs.
  - cbn [for_each ret trace_monad snd map Rsum fold_right].
    destruct r; cbn [fst snd]. do 2 f_equal; ring.
  - cbn [for_each].
    rewrite (trace_bind_value _ _ _
               (sample_value i r (Hxs i (or_introl eq_refl)))).
    rewrite IH by (intros j Hj; apply Hxs; now right).
    cbn [fst snd map Rsum fold_right].
    do 2 f_equal; unfold Rsum; ring.
Qed.

(** With exact arithmetic and a sample count of at most [2^47] the
    integrator returns the split sum. *)
Lemma calculate_dfg_value :
  (n <= 2 ^ 47)%Z ->
  snd (calculate_dfg nov a n) = Some (Reference.split_sum nov a n).
Proof.
  intros Hn. unfold calculate_dfg.
  rewrite py_sqrt_some by nra. rewrite trace_bind_lift.
  fold (Reference.view nov).
  rewrite (trace_bind_value _ _ _ (loop_value (range n) (0, 0)
             (fun i Hi => ltac:(apply range_In in Hi; lia)))).
  rewrite py_div_some by (apply not_0_IZR; lia).
  rewrite trace_bind_lift.
  cbn [ret trace_monad fst snd]. unfold Reference.split_sum.
  do 2 f_equal; ring.
Qed.

(** Whatever the integrator returns is the split sum. *)
Lemma calculate_dfg_returns (r : R * R) :
  snd (calculate_dfg nov a n) = Some r -> r = Reference.split_sum nov a n.
Proof.
  unfold calculate_dfg.
  rewrite py_sqrt_some by nra. rewrite trace_bind_lift.
  fold (Reference.view nov). intros H.
  destruct (for_each (range n) (sample nov a n (Reference.view nov)) (0, 0))
    as [log [acc |]] eqn:Eloop;
    [| cbn [bind trace_monad snd] in H; discriminate].
  assert (Hacc : snd (for_each (range n)
                   (sample nov a n (Reference.view nov)) (0, 0)) = Some acc)
    by now rewrite Eloop.
  apply loop_returns in Hacc.
  rewrite py_div_some in H by (apply not_0_IZR; lia).
  cbn [bind trace_monad trace_lift ret fst snd app] in H.
  injection H as <-. rewrite Hacc. unfold Reference.split_sum.
  cbn [fst snd]. f_equal; ring.
Qed.

Lemma contribution_order (i : Z) :
  0 <= fst (Reference.contribution nov a n i)
    <= snd (Reference.contribution nov a n i).
Proof.
  pose proof (sample_noh_pos i) as Hnoh.
  unfold Reference.contribution.
  set (v := Reference.view nov).
  set (h := Reference.ggx_sample (Reference.point i n) a) in *.
  cbv zeta.
  set (nol := saturate (vz (vsub (vscale (2 * dot v h) h) v))).
  set (noh := saturate (vz h)) in *.
  pose proof (saturate_range (dot v h)) as Hvoh.
  set (voh := saturate (dot v h)) in *.
  destruct (Rlt_dec 0 nol) as [Hnol | Hnol]; cbn [fst snd]; [| lra].
  assert (Hvis : 0 < Reference.vis_term nov nol a)
    by (apply vis_term_pos; lra).
  assert (Hq : 0 <= voh / noh).
  { apply Rmult_le_pos; [lra |]. left. now apply Rinv_0_lt_compat. }
  assert (Hw : 0 <= Reference.vis_term nov nol a * nol * (voh / noh)).
  { apply Rmult_le_pos; [| exact Hq]. apply Rmult_le_pos; lra. }
  assert (Hfc : 0 <= (1 - voh) ^ 5 <= 1).
  { split; [apply pow_le; lra |].
    rewrite <- (pow1 5). apply pow_incr. lra. }
  set (w := Reference.vis_term nov nol a * nol * (voh / noh)) in *.
  nra.
Qed.

Lemma split_sum_order :
  0 <= fst (Reference.split_sum nov a n) <= snd (Reference.split_sum nov a n).
Proof.
  unfold Reference.split_sum. cbn [fst snd].
  assert (Hk : 0 < 4 / IZR n).
  { apply Rdiv_lt_0_compat; [lra |]. apply IZR_lt. lia. }
  assert (H0 : 0 <= Rsum (map (fun i => fst (Reference.contribution nov a n i))
                              (range n)))
    by (apply Rsum_nonneg; intros i _; apply contribution_order).
  assert (H1 : Rsum (map (fun i => fst (Reference.contribution nov a n i))
                         (range n))
               <= Rsum (map (fun i => snd (Reference.contribution nov a n i))
                            (range n)))
    by (apply Rsum_le; intros i _; apply contribution_order).
  split.
  - apply Rmult_le_pos; lra.
  - apply Rmult_le_compat_r; lra.
Qed.

End Integrator.

(** ** The log of visibility calls *)

Lemma trace_bind_log {A B : Type} (P : call -> Prop) (m : Trace A)
    (f : A -> Trace B) :
  Forall P (fst m) -> (forall x, Forall P (fst (f x))) ->
  Forall P (fst (y <- m ;; f y)).
Proof.
  intros Hm Hf. destruct m as [log [x |]]; cbn [bind trace_monad fst] in *.
  - specialize (Hf x). destruct (f x) as [log' r]. cbn [fst] in *.
    apply Forall_app. now split.
  - exact Hm.
Qed.

Lemma sample_log (nov a : R) (n : Z) (v : vec3) (i : Z) (r : R * R) :
  Forall (fun c => 0 < call_nol c) (fst (sample nov a n v i r)).
Proof.
  unfold sample.
  apply trace_bind_log; [constructor | intros u].
  apply trace_bind_log; [constructor | intros h].
  cbv zeta. destruct (Rlt_dec 0 _) as [Hnol | Hnol].
  - apply trace_bind_log.
    + unfold call_visibility. cbn [fst]. constructor; [| constructor].
      exact Hnol.
    + intros g. apply trace_bind_log; [constructor | intros q].
      constructor.
  - constructor.
Qed.

Lemma loop_log (nov a : R) (n : Z) (v : vec3) (xs : list Z) (r : R * R) :
  Forall (fun c => 0 < call_nol c)
         (fst (for_each xs (sample nov a n v) r)).
Proof.
  revert r. induction xs as [| i xs IH]; intros r; cbn [for_each].
  - constructor.
  - apply trace_bind_log; [apply sample_log | exact IH].
Qed.

Lemma calculate_dfg_log (nov a : R) (n : Z) :
  Forall (fun c => 0 < call_nol c) (fst (calculate_dfg nov a n)).
Proof.
  unfold calculate_dfg.
  apply trace_bind_log; [constructor | intros x].
  apply trace_bind_log; [apply loop_log | intros r].
  apply trace_bind_log; [constructor | intros k]. constructor.
Qed.

(** ** Writing texels *)

Lemma rounding_exact : rounding (fun x => x).
Proof. repeat split; auto. Qed.

Lemma py_int_byte_range (round : R -> R) (c : R) :
  rounding round -> (0 <= py_int (round (saturate c * 255)%R) <= 255)%Z.
Proof.
  intros (Hmono & H0 & H255).
  pose proof (saturate_range c) as Hs.
  assert (Hlo : 0 <= round (saturate c * 255))
    by (rewrite <- H0; apply Hmono; nra).
  assert (Hhi : round (saturate c * 255) <= 255)
    by (rewrite <- H255; apply Hmono; nra).
  set (x := round (saturate c * 255)) in *.
  unfold py_int. destruct (Rle_dec 0 x) as [Hx | Hx]; [| contradiction].
  destruct (base_Int_part x) as [Hle Hgt].
  split.
  - assert (IZR (-1) < IZR (Int_part x)) by lra.
    apply lt_IZR in H. lia.
  - apply le_IZR. lra.
Qed.

Lemma pack_B_some (z : Z) :
  (0 <= z <= 255)%Z -> exists b, pack_B z = Some b /\ byte_value b = z.
Proof.
  intros Hz. unfold pack_B.
  replace ((0 <=? z)%Z && (z <=? 255)%Z) with true
    by (symmetry; apply andb_true_intro; split; apply Z.leb_le; lia).
  destruct (Byte.of_N (Z.to_N z)) as [b |] eqn:E.
  - exists b. split; [reflexivity |]. unfold byte_value.
    apply Byte.to_of_N in E. rewrite E. lia.
  - apply Byte.of_N_None_iff in E. lia.
Qed.

Lemma pack_B_value (z : Z) (b : byte) :
  pack_B z = Some b -> byte_value b = z.
Proof.
  unfold pack_B.
  destruct (Z.leb_spec 0 z); cbn [andb]; [| discriminate].
  destruct (Z.leb_spec z 255); [| discriminate].
  intros E. unfold byte_value. apply Byte.to_of_N in E. rewrite E. lia.
Qed.

Section OutputFacts.

Variable float16_bytes : R -> list byte.
Variable round : R -> R.

(** What [write_dfg] does with a pair in portable-pixel-map format. *)
Lemma write_dfg_ppm_unfold (dfg1 dfg2 : R) (fp : list byte) :
  write_dfg float16_bytes round [dfg1; dfg2] "ppm" fp
  = match pack_B (py_int (round (saturate dfg1 * 255))),
          pack_B (py_int (round (saturate dfg2 * 255))) with
    | Some r, Some g => ((fp ++ [r; g; x00])%list, Some tt)
    | _, _ => (fp, None)
    end.
Proof.
  unfold write_dfg.
  cbn [List.length Nat.eqb negb map app struct_pack_BBB].
  change (String.eqb "ppm" "raw") with false.
  change (String.eqb "ppm" "ppm") with true.
  cbn [bind file_monad file_lift option_monad ret].
  destruct (pack_B (py_int (round (saturate dfg1 * 255)))) as [r |];
    [| reflexivity].
  destruct (pack_B (py_int (round (saturate dfg2 * 255)))) as [g |];
    reflexivity.
Qed.

Lemma write_dfg_ppm_bytes (dfg1 dfg2 : R) (fp : list byte) :
  rounding round ->
  exists r g : byte,
    write_dfg float16_bytes round [dfg1; dfg2] "ppm" fp
      = ((fp ++ [r; g; x00])%list, Some tt)
    /\ byte_value r = py_int (round (saturate dfg1 * 255))
    /\ byte_value g = py_int (round (saturate dfg2 * 255)).
Proof.
  intros Hround.
  destruct (pack_B_some _ (py_int_byte_range round dfg1 Hround))
    as (r & Er & Hr).
  destruct (pack_B_some _ (py_int_byte_range round dfg2 Hround))
    as (g & Eg & Hg).
  exists r, g. split; [| now split].
  rewrite write_dfg_ppm_unfold, Er, Eg. reflexivity.
Qed.

Lemma write_dfg_other (dfg : list R) (file_format : string)
    (fp : list byte) :
  List.length dfg = 2%nat -> file_format <> "raw"%string ->
  file_format <> "ppm"%string ->
  write_dfg float16_bytes round dfg file_format fp = (fp, Some tt).
Proof.
  intros Hlen Hraw Hppm. unfold write_dfg. rewrite Hlen.
  apply String.eqb_neq in Hraw, Hppm. rewrite Hraw, Hppm. reflexivity.
Qed.

(** What [write_dfg] appends does not depend on what the file holds. *)
Lemma write_dfg_frame (dfg : list R) (file_format : string)
    (fp : list byte) :
  write_dfg float16_bytes round dfg file_format fp
  = ((fp ++ fst (write_dfg float16_bytes round dfg file_format []))%list,
     snd (write_dfg float16_bytes round dfg file_format [])).
Proof.
  unfold write_dfg.
  destruct (negb _); [cbn; now rewrite app_nil_r |].
  destruct (String.eqb file_format "raw"); [reflexivity |].
  destruct (String.eqb file_format "ppm");
    [| cbn; now rewrite app_nil_r].
  cbn [bind file_monad file_lift].
  destruct (struct_pack_BBB _) as [packed |];
    [reflexivity | cbn; now rewrite app_nil_r].
Qed.

Lemma appends_ret {A : Type} (x : A) : appends (ret x).
Proof. intros fp. exists []. cbn. now rewrite app_nil_r. Qed.

Lemma appends_lift {A : Type} (m : option A) : appends (file_lift m).
Proof. intros fp. exists []. cbn. now rewrite app_nil_r. Qed.

Lemma appends_write (data : list byte) : appends (fp_write data).
Proof. intros fp. now exists data. Qed.

Lemma appends_bind {A B : Type} (m : File A) (f : A -> File B) :
  appends m -> (forall x, appends (f x)) -> appends (y <- m ;; f y).
Proof.
  intros Hm Hf fp. destruct (Hm fp) as (rest & E).
  cbn [bind file_monad]. destruct (m fp) as [fp' [x |]]; cbn [fst] in *.
  - destruct (Hf x fp') as (rest' & E'). exists (rest ++ rest')%list.
    rewrite E', E. now rewrite app_assoc.
  - now exists rest.
Qed.

Lemma appends_for_each {S : Type} (xs : list Z) (body : Z -> S -> File S)
    (s : S) :
  (forall x s', appends (body x s')) -> appends (for_each xs body s).
Proof.
  intros Hbody. revert s. induction xs as [| x xs IH]; intros s;
    cbn [for_each].
  - apply appends_ret.
  - apply appends_bind; [apply Hbody | exact IH].
Qed.

Lemma appends_write_dfg (dfg : list R) (file_format : string) :
  appends (write_dfg float16_bytes round dfg file_format).
Proof.
  unfold write_dfg.
  destruct (negb _); [apply appends_lift |].
  destruct (String.eqb file_format "raw"); [apply appends_write |].
  destruct (String.eqb file_format "ppm"); [| apply appends_ret].
  apply appends_bind; [apply appends_lift | intros; apply appends_write].
Qed.

Lemma appends_texel (resolution samples : Z) (file_format : string)
    (t s : Z) :
  appends (texel float16_bytes round resolution samples file_format t s).
Proof.
  unfold texel.
  apply appends_bind; [apply appends_lift | intros nov].
  apply appends_bind; [apply appends_lift | intros pr].
  apply appends_bind; [apply appends_lift | intros dfg].
  apply appends_write_dfg.
Qed.

(** In the portable-pixel-map format the output begins with the header,
    whatever happens afterwards. *)
Lemma main_ppm_header (resolution : arg_value) (samples : Z) :
  exists rest : list byte,
    fst (main float16_bytes round resolution samples "ppm" [])
    = (list_byte_of_string (ppm_header resolution) ++ rest)%list.
Proof.
  unfold main. change (String.eqb "ppm" "ppm") with true.
  cbn [bind file_monad fp_write app].
  destruct resolution as [n | s].
  - apply appends_for_each. intros t [].
    apply appends_for_each. intros s []. apply appends_texel.
  - apply appends_lift.
Qed.

End OutputFacts.

(** ** Checked properties *)

(** The bit reversal on a few indices. *)
Example rev32_examples :
  rev32 1 = 0x80000000%Z /\ rev32 0x80000000 = 1%Z
  /\ rev32 6 = 0x60000000%Z /\ rev32 0xFFFFFFFF = 0xFFFFFFFF%Z.
Proof. repeat split; reflexivity. Qed.






(** C2, as stated, fails at the first step: for the index [2^16] the
    unmasked first assignment leaves [2^32 + 1] in [bits], where exact
    32-bit arithmetic leaves [1]. *)
Lemma hammersley_first_step_exceeds_u32 :
  (0 <= 65536 < 2 ^ 32)%Z
  /\ step1 65536 = 4294967297%Z /\ U32.step1 65536 = 1%Z
  /\ step1 65536 <> U32.step1 65536.
Proof.
  split; [lia |]. split; [reflexivity |]. split; [reflexivity |].
  discriminate.
Qed.

(** C2, amended.  For a 32-bit index [i] and [N >= 1], [hammersley]
    returns [(i/N, rev32(i)/2^32)].  The first, unmasked step agrees with
    exact 32-bit arithmetic modulo [2^32] only; after each of the four
    later steps [bits] holds exactly the 32-bit value. *)
Theorem hammersley_rev32_and_steps (i N : Z) :
  (0 <= i < 2 ^ 32)%Z -> (1 <= N)%Z ->
  hammersley i N = Some (IZR i / IZR N, IZR (rev32 i) / 4294967296)
  /\ U32.u32 (step1 i) = U32.step1 i
  /\ step2 (step1 i) = U32.step2 (U32.step1 i)
  /\ step3 (step2 (step1 i)) = U32.step3 (U32.step2 (U32.step1 i))
  /\ step4 (step3 (step2 (step1 i)))
     = U32.step4 (U32.step3 (U32.step2 (U32.step1 i)))
  /\ hammersley_bits i
     = U32.step5 (U32.step4 (U32.step3 (U32.step2 (U32.step1 i)))).
Proof.
  intros Hi HN.
  assert (E1 : U32.u32 (step1 i) = U32.step1 i)
    by (symmetry; now apply step1_u32).
  assert (E2 : step2 (step1 i) = U32.step2 (U32.step1 i))
    by (rewrite <- E1; apply step2_u32).
  assert (E3 : step3 (step2 (step1 i))
               = U32.step3 (U32.step2 (U32.step1 i))).
  { rewrite <- E2, step3_u32, u32_small by apply step2_range. reflexivity. }
  assert (E4 : step4 (step3 (step2 (step1 i)))
               = U32.step4 (U32.step3 (U32.step2 (U32.step1 i)))).
  { rewrite <- E3, step4_u32, u32_small by apply step3_range. reflexivity. }
  repeat split; try assumption.
  - rewrite hammersley_some by lia. unfold Reference.point.
    rewrite hammersley_u1, hammersley_bits_rev32 by assumption.
    reflexivity.
  - unfold hammersley_bits. rewrite <- E4, step5_u32, u32_small
      by apply step4_range. reflexivity.
Qed.

Lemma hammersley_rev32_and_steps_witness :
  (0 <= 65536 < 2 ^ 32)%Z /\ (1 <= 1024)%Z
  /\ hammersley 65536 1024
     = Some (IZR 65536 / IZR 1024, IZR (rev32 65536) / 4294967296)
  /\ U32.u32 (step1 65536) = U32.step1 65536
  /\ step2 (step1 65536) = U32.step2 (U32.step1 65536).
Proof.
  split; [lia |]. split; [lia |].
  destruct (hammersley_rev32_and_steps 65536 1024) as (H & H1 & H2 & _);
    [lia | lia |].
  split; [exact H |]. split; [exact H1 | exact H2].
Defined.

Section SamplerInBinary64.

Import PrimFloat PrimInt63.
Local Open Scope float_scope.

(** C3 fails on the code.  Sample 3 of 4 has [bits = 0xC0000000], hence
    [u1 = 0.75]; with the roughness [1e-9] (the binary64 number
    [0x1.12e0be826d695p-30]) the quotient of line 44 rounds to
    [1 + 2^-51], above 1, so [math.sqrt(1.0 - cos_theta2)] on line 46
    raises and no direction is returned.  For the roughness [0.5] both
    square roots are taken. *)
Theorem b64_sampler_raises :
  hammersley_bits 3 = 3221225472%Z
  /\ B64.u1_of_bits 3221225472%uint63 = 0.75
  /\ B64.cos_theta2 0.75 0x1.12e0be826d695p-30 = 0x1.0000000000002p+0
  /\ (1 - 0x1.0000000000002p+0 <? 0) = true
  /\ B64.sampler_angles 0.75 0x1.12e0be826d695p-30 = None
  /\ B64.sampler_angles 0.75 0.5 <> None.
Proof.
  split; [reflexivity |].
  split; [vm_compute; reflexivity |].
  split; [vm_compute; reflexivity |].
  split; [vm_compute; reflexivity |].
  split; [vm_compute; reflexivity |].
  vm_compute. discriminate.
Qed.

End SamplerInBinary64.

Lemma vis_divisor_pos_either (nov nol a : R) :
  0 <= nov -> 0 <= nol -> ~ (nov = 0 /\ nol = 0) -> 0 < a <= 1 ->
  0 < nol * sqrt ((nov - nov * (a * a)) * nov + a * a)
      + nov * sqrt ((nol - nol * (a * a)) * nol + a * a).
Proof.
  intros Hnov Hnol Hnz Ha.
  pose proof (sqrt_lt_R0 _ (vis_radicand_pos nov a Ha)).
  pose proof (sqrt_lt_R0 _ (vis_radicand_pos nol a Ha)).
  destruct (Rle_lt_or_eq_dec 0 nov Hnov) as [Hpos | Hz]; [nra |].
  destruct (Rle_lt_or_eq_dec 0 nol Hnol) as [Hpos' | Hz']; [nra |].
  exfalso. apply Hnz. now split.
Qed.

(** C4.  For [nov], [nol] in [0,1], not both zero, and [a] in (0,1],
    [visibility] is defined and takes the same value with its two cosine
    arguments exchanged. *)
Theorem visibility_symmetric (nov nol a : R) :
  0 <= nov <= 1 -> 0 <= nol <= 1 -> 0 < a <= 1 ->
  ~ (nov = 0 /\ nol = 0) ->
  exists g : R,
    visibility nov nol a = Some g /\ visibility nol nov a = Some g.
Proof.
  intros Hnov Hnol Ha Hnz.
  pose proof (vis_radicand_pos nov a Ha) as Hrv.
  pose proof (vis_radicand_pos nol a Ha) as Hrl.
  assert (Hd : 0 < nol * sqrt ((nov - nov * (a * a)) * nov + a * a)
                   + nov * sqrt ((nol - nol * (a * a)) * nol + a * a))
    by (apply vis_divisor_pos_either; lra || assumption).
  exists (Reference.vis_term nov nol a).
  unfold visibility, visibility_ggxl, visibility_ggxv, Reference.vis_term.
  cbn [bind option_monad ret].
  rewrite !py_sqrt_some by lra. rewrite !py_div_some by lra.
  split; [reflexivity |]. do 2 f_equal. ring.
Qed.

Lemma visibility_symmetric_witness :
  0 <= 1 / 2 <= 1 /\ 0 <= 0 <= 1 /\ 0 < 1 <= 1
  /\ ~ (1 / 2 = 0 /\ 0 = 0)
  /\ exists g : R,
       visibility (1 / 2) 0 1 = Some g /\ visibility 0 (1 / 2) 1 = Some g.
Proof.
  assert (Hnz : ~ (1 / 2 = 0 /\ 0 = 0)) by (intros [H _]; lra).
  split; [lra |]. split; [lra |]. split; [lra |]. split; [exact Hnz |].
  apply (visibility_symmetric (1 / 2) 0 1); [lra | lra | lra | exact Hnz].
Defined.

(** C5, as stated, fails above [2^32]: for [N = 2^33] no sample index
    yields the grid point [1/N], every second coordinate being a multiple
    of [1/2^32]. *)
Lemma hammersley_grid_fails_above_2_32 :
  (8589934592 = 2 ^ 33)%Z
  /\ ~ (exists us : list (R * R),
          map (fun i => hammersley i 8589934592) (range 8589934592)
          = map Some us
          /\ Permutation (map snd us)
               (map (fun j => IZR j / IZR 8589934592)
                    (range 8589934592))).
Proof.
  split; [reflexivity |]. intros (us & Hmap & Hperm).
  assert (Hin : In (IZR 1 / IZR 8589934592) (map snd us)).
  { apply (Permutation_in _ (Permutation_sym Hperm)).
    apply (in_map (fun j => IZR j / IZR 8589934592)).
    apply range_In. lia. }
  destruct (proj1 (in_map_iff _ _ _) Hin) as (u & Hu & Hus).
  pose proof (in_map Some _ _ Hus) as Hsome. rewrite <- Hmap in Hsome.
  destruct (proj1 (in_map_iff _ _ _) Hsome) as (i & Hi & _).
  apply hammersley_inv in Hi. destruct Hi as (-> & _ & _).
  unfold Reference.point in Hu. cbn [snd] in Hu.
  unfold tof in Hu.
  assert (E : IZR (2 * hammersley_bits i) = IZR 1)
    by (rewrite mult_IZR; lra).
  apply eq_IZR in E. lia.
Qed.

(** C5, amended.  For [N = 2^k] with [k <= 32], [hammersley] returns for
    every index below [N], and the second coordinates are a permutation of
    the grid [0, 1/N, ..., (N-1)/N]. *)
Theorem hammersley_u1_permutes_grid (k : nat) :
  (k <= 32)%nat ->
  exists us : list (R * R),
    map (fun i => hammersley i (2 ^ Z.of_nat k)) (range (2 ^ Z.of_nat k))
    = map Some us
    /\ Permutation (map snd us)
         (map (fun j => IZR j / IZR (2 ^ Z.of_nat k))
              (range (2 ^ Z.of_nat k))).
Proof.
  intros Hk. set (N := (2 ^ Z.of_nat k)%Z).
  assert (HN : (0 < N)%Z) by (apply Z.pow_pos_nonneg; lia).
  exists (map (fun i => Reference.point i N) (range N)). split.
  - rewrite map_map. apply map_ext_in. intros i Hi. apply range_In in Hi.
    assert (2 ^ Z.of_nat k <= 2 ^ 32)%Z by (apply Z.pow_le_mono_r; lia).
    apply hammersley_some; unfold N in *; lia.
  - rewrite map_map.
    rewrite (map_ext_in _ (fun i => IZR (bitrev k i) / IZR N)).
    + rewrite <- (map_map (bitrev k) (fun j => IZR j / IZR N)).
      apply Permutation_map, bitrev_permutes.
    + intros i Hi. apply range_In in Hi. unfold Reference.point. cbn [snd].
      rewrite hammersley_u1, (hammersley_bits_low k) by assumption.
      assert (Hsplit : (2 ^ 32 = 2 ^ Z.of_nat (32 - k) * N)%Z).
      { unfold N. rewrite <- Z.pow_add_r by lia. f_equal. lia. }
      rewrite Hsplit, !mult_IZR.
      assert (IZR N <> 0) by (apply not_0_IZR; lia).
      assert (IZR (2 ^ Z.of_nat (32 - k)) <> 0).
      { apply not_0_IZR.
        assert (0 < 2 ^ Z.of_nat (32 - k))%Z
          by (apply Z.pow_pos_nonneg; lia).
        lia. }
      field. now split.
Qed.

Lemma hammersley_u1_permutes_grid_witness :
  (3 <= 32)%nat
  /\ exists us : list (R * R),
       map (fun i => hammersley i (2 ^ Z.of_nat 3)) (range (2 ^ Z.of_nat 3))
       = map Some us
       /\ Permutation (map snd us)
            (map (fun j => IZR j / IZR (2 ^ Z.of_nat 3))
                 (range (2 ^ Z.of_nat 3))).
Proof.
  split; [lia |]. apply (hammersley_u1_permutes_grid 3). lia.
Defined.

(** C6.  With [nov = 0] and [nol = 0] both summands of the divisor of
    [visibility] are 0 and the division has no value; and every call of
    [visibility] that [calculate_dfg] makes, on any input, has [nol > 0],
    so none has both cosines zero. *)
Theorem visibility_degenerate_unreachable :
  (forall a : R,
     visibility_ggxl 0 0 a = Some 0 /\ visibility_ggxv 0 0 a = Some 0
     /\ visibility 0 0 a = None)
  /\ (forall (nov a : R) (N : Z),
        Forall (fun c => 0 < call_nol c
                         /\ ~ (call_nov c = 0 /\ call_nol c = 0))
               (fst (calculate_dfg nov a N))).
Proof.
  split.
  - intros a.
    assert (Hl : visibility_ggxl 0 0 a = Some 0).
    { unfold visibility_ggxl. cbn [bind option_monad ret].
      rewrite py_sqrt_some by nra. f_equal. ring. }
    assert (Hv : visibility_ggxv 0 0 a = Some 0).
    { unfold visibility_ggxv. cbn [bind option_monad ret].
      rewrite py_sqrt_some by nra. f_equal. ring. }
    split; [exact Hl |]. split; [exact Hv |].
    unfold visibility. rewrite Hl, Hv. cbn [bind option_monad].
    replace (0 + 0) with 0 by ring. apply py_div_zero.
  - intros nov a N.
    eapply Forall_impl; [| apply calculate_dfg_log].
    intros c Hc. cbv beta in Hc. split; [exact Hc |]. intros [_ Hz]. lra.
Qed.

Section ProductInBinary64.

Import PrimFloat.
Local Open Scope float_scope.

(** The product of line 104 in binary64.  For the channel value nearest
    to 1/255, [0x1.010101010101p-8], which is below 1/255, the exact
    product with 255 is below 1 but the rounded product is 1, and [int]
    gives the byte 1: the byte is made from the rounded product. *)
Lemma b64_product_reaches_one :
  1 / 255 = 0x1.010101010101p-8
  /\ 0x1.010101010101p-8 * 255 = 1
  /\ (0x1.010101010101p-8 * 255 <? 1) = false.
Proof. repeat split; vm_compute; reflexivity. Qed.

End ProductInBinary64.

(** C7.  In portable-pixel-map format every texel pair is written as
    exactly three bytes: the products [clamp(dfg1,0,1)*255] and
    [clamp(dfg2,0,1)*255] as line 104 hands them to [struct.pack], that is
    rounded to binary64 and cut to an integer by [int], and a constant 0;
    and the output of [main] begins with the header
    [P6\n<R> <R>\n255\n], which for the default resolution 64 is the byte
    string shown.  The rounding is any [round] that keeps order and is
    exact on 0 and 255. *)
Theorem write_dfg_ppm_format (float16_bytes : R -> list byte)
    (round : R -> R) (dfg1 dfg2 : R) (fp : list byte)
    (resolution : arg_value) (samples : Z) :
  rounding round ->
  (exists r g : byte,
     write_dfg float16_bytes round [dfg1; dfg2] "ppm" fp
       = ((fp ++ [r; g; "000"%byte])%list, Some tt)
     /\ byte_value r = py_int (round (saturate dfg1 * 255))
     /\ byte_value g = py_int (round (saturate dfg2 * 255)))
  /\ (exists rest : list byte,
        fst (main float16_bytes round resolution samples "ppm" [])
        = (list_byte_of_string (ppm_header resolution) ++ rest)%list)
  /\ ppm_header resolution
     = ("P6" ++ newline ++ format_value resolution ++ " "
             ++ format_value resolution ++ newline ++ "255" ++ newline)%string
  /\ list_byte_of_string (ppm_header (ArgInt 64))
     = ["P"; "6"; "010"; "6"; "4"; " "; "6"; "4"; "010";
        "2"; "5"; "5"; "010"]%byte.
Proof.
  intros Hround.
  split; [| split; [apply main_ppm_header | split; reflexivity]].
  now apply write_dfg_ppm_bytes.
Qed.

Lemma write_dfg_ppm_format_witness :
  rounding (fun x => x)
  /\ exists r g : byte,
       write_dfg (fun _ => []) (fun x => x) [1 / 2; 1 / 4] "ppm" []
       = ([r; g; "000"%byte], Some tt)
       /\ byte_value r = py_int (saturate (1 / 2) * 255)
       /\ byte_value g = py_int (saturate (1 / 4) * 255).
Proof.
  split; [exact rounding_exact |].
  destruct (write_dfg_ppm_format (fun _ => []) (fun x => x) (1 / 2) (1 / 4)
              [] (ArgInt 64) 1024 rounding_exact) as (H & _).
  exact H.
Defined.

(** C8.  On [nov] in (0,1], [a] in (0,1] and [N >= 1] the two channels of
    a result of [calculate_dfg] satisfy [0 <= dfg1 <= dfg2]. *)
Theorem calculate_dfg_channels_ordered (nov a : R) (N : Z)
    (dfg1 dfg2 : R) :
  0 < nov <= 1 -> 0 < a <= 1 -> (1 <= N)%Z ->
  snd (calculate_dfg nov a N) = Some (dfg1, dfg2) ->
  0 <= dfg1 <= dfg2.
Proof.
  intros Hnov Ha HN Hret.
  apply calculate_dfg_returns in Hret; try assumption.
  pose proof (split_sum_order nov a N Hnov Ha HN) as Hord.
  rewrite <- Hret in Hord. exact Hord.
Qed.

Lemma calculate_dfg_channels_ordered_witness :
  0 < 1 / 2 <= 1 /\ 0 < 1 / 4 <= 1 /\ (1 <= 16)%Z
  /\ snd (calculate_dfg (1 / 2) (1 / 4) 16)
     = Some (fst (Reference.split_sum (1 / 2) (1 / 4) 16),
             snd (Reference.split_sum (1 / 2) (1 / 4) 16))
  /\ 0 <= fst (Reference.split_sum (1 / 2) (1 / 4) 16)
       <= snd (Reference.split_sum (1 / 2) (1 / 4) 16).
Proof.
  assert (Hnov : 0 < 1 / 2 <= 1) by lra.
  assert (Ha : 0 < 1 / 4 <= 1) by lra.
  assert (HN : (1 <= 16)%Z) by lia.
  assert (Hret : snd (calculate_dfg (1 / 2) (1 / 4) 16)
                 = Some (fst (Reference.split_sum (1 / 2) (1 / 4) 16),
                         snd (Reference.split_sum (1 / 2) (1 / 4) 16))).
  { rewrite <- surjective_pairing.
    apply calculate_dfg_value; [exact Hnov | exact Ha | exact HN | lia]. }
  split; [exact Hnov |]. split; [exact Ha |]. split; [exact HN |].
  split; [exact Hret |].
  exact (calculate_dfg_channels_ordered (1 / 2) (1 / 4) 16 _ _
           Hnov Ha HN Hret).
Defined.

(** C9.  For every sample index [i] in [[0, N)] and [a] in (0,1], the
    half vector that the sampler returns for the point that [hammersley]
    returns has a strictly positive third component, so
    [noh = saturate(h.z) > 0] and a division by [noh] is defined whatever
    its dividend. *)
Theorem sample_noh_positive (i N : Z) (a : R) (u : R * R) (h : vec3) :
  (0 <= i < N)%Z -> 0 < a <= 1 ->
  hammersley i N = Some u ->
  hemisphere_importance_sample_dggx u a = Some h ->
  0 < vz h /\ 0 < saturate (vz h)
  /\ forall voh : R,
       py_div voh (saturate (vz h)) = Some (voh / saturate (vz h)).
Proof.
  intros Hi Ha Hu Hh.
  apply hammersley_inv in Hu. destruct Hu as (-> & _ & _).
  pose proof (hammersley_u1_range i) as Hu1.
  unfold Reference.point in Hh.
  rewrite dggx_some in Hh by assumption. injection Hh as <-.
  assert (Hz : 0 < vz (Reference.ggx_sample
                         (IZR i / IZR N, IZR (hammersley_bits i) * tof) a))
    by now apply ggx_sample_z_pos.
  pose proof (saturate_pos _ Hz) as Hnoh.
  split; [exact Hz |]. split; [exact Hnoh |].
  intros voh. apply py_div_some. lra.
Qed.

Lemma sample_noh_positive_witness :
  (0 <= 3 < 1024)%Z /\ 0 < 1 / 2 <= 1
  /\ hammersley 3 1024 = Some (Reference.point 3 1024)
  /\ hemisphere_importance_sample_dggx (Reference.point 3 1024) (1 / 2)
     = Some (Reference.ggx_sample (Reference.point 3 1024) (1 / 2))
  /\ 0 < vz (Reference.ggx_sample (Reference.point 3 1024) (1 / 2)).
Proof.
  assert (Hi : (0 <= 3 < 1024)%Z) by lia.
  assert (Ha : 0 < 1 / 2 <= 1) by lra.
  assert (Hu : hammersley 3 1024 = Some (Reference.point 3 1024))
    by (apply hammersley_some; lia).
  assert (Hh : hemisphere_importance_sample_dggx (Reference.point 3 1024)
                 (1 / 2)
               = Some (Reference.ggx_sample (Reference.point 3 1024)
                         (1 / 2))).
  { unfold Reference.point.
    apply dggx_some; [apply hammersley_u1_range | exact Ha]. }
  split; [exact Hi |]. split; [exact Ha |]. split; [exact Hu |].
  split; [exact Hh |].
  exact (proj1 (sample_noh_positive 3 1024 (1 / 2) _ _ Hi Ha Hu Hh)).
Defined.

(** C10.  For a texel pair of length 2 and a format other than ['raw'] and
    ['ppm'], [write_dfg] leaves the file as it is and raises nothing. *)
Theorem write_dfg_unknown_format_noop (float16_bytes : R -> list byte)
    (round : R -> R) (dfg : list R) (file_format : string)
    (fp : list byte) :
  List.length dfg = 2%nat -> file_format <> "raw"%string ->
  file_format <> "ppm"%string ->
  write_dfg float16_bytes round dfg file_format fp = (fp, Some tt).
Proof. intros Hlen Hraw Hppm. now apply write_dfg_other. Qed.

Lemma write_dfg_unknown_format_noop_witness :
  List.length [0; 0] = 2%nat /\ "png"%string <> "raw"%string
  /\ "png"%string <> "ppm"%string
  /\ write_dfg (fun _ => []) (fun x => x) [0; 0] "png" ["P"%byte]
     = (["P"%byte], Some tt).
Proof.
  split; [reflexivity |]. split; [discriminate |]. split; [discriminate |].
  apply (write_dfg_unknown_format_noop (fun _ => []) (fun x => x) [0; 0]
           "png");
    [reflexivity | discriminate | discriminate].
Defined.

(** ** Further properties of the sequence generator and the sampler *)

(** X1.  [saturate] is a monotone clamp onto [0,1]: it preserves order,
    its values lie in [0,1], and applying it twice changes nothing. *)
Theorem saturate_monotone_clamp (x y : R) :
  x <= y ->
  0 <= saturate x <= saturate y /\ saturate y <= 1
  /\ saturate (saturate x) = saturate x.
Proof.
  intros Hxy.
  pose proof (saturate_range x) as Hx. pose proof (saturate_range y) as Hy.
  split; [| split; [lra | now apply saturate_id]].
  split; [lra |].
  unfold saturate, Rmin, Rmax.
  destruct (Rle_dec x 0); destruct (Rle_dec y 0);
    repeat match goal with |- context [Rle_dec ?p ?q] =>
             destruct (Rle_dec p q) end; lra.
Qed.

Lemma saturate_monotone_clamp_witness :
  -1 <= 1 / 2
  /\ 0 <= saturate (-1) <= saturate (1 / 2) /\ saturate (1 / 2) <= 1
  /\ saturate (saturate (-1)) = saturate (-1).
Proof.
  split; [lra |]. apply (saturate_monotone_clamp (-1) (1 / 2)). lra.
Defined.

(** Reversing the bits twice gives the index back. *)
Lemma hammersley_bits_twice (i : Z) :
  (0 <= i < 2 ^ 32)%Z -> hammersley_bits (hammersley_bits i) = i.
Proof.
  intros Hi.
  rewrite (hammersley_bits_rev32 (hammersley_bits i))
    by apply hammersley_bits_range.
  rewrite hammersley_bits_rev32 by assumption.
  unfold rev32. apply bitrev_involutive. cbn. lia.
Qed.

(** X2.  On 32-bit indices the bit manipulation of [hammersley] is its own
    inverse, and it maps 32-bit values to 32-bit values. *)
Theorem hammersley_bits_involutive (i : Z) :
  (0 <= i < 2 ^ 32)%Z ->
  (0 <= hammersley_bits i < 2 ^ 32)%Z
  /\ hammersley_bits (hammersley_bits i) = i.
Proof.
  intros Hi. split; [apply hammersley_bits_range |].
  now apply hammersley_bits_twice.
Qed.

Lemma hammersley_bits_involutive_witness :
  (0 <= 6 < 2 ^ 32)%Z
  /\ (0 <= hammersley_bits 6 < 2 ^ 32)%Z
  /\ hammersley_bits (hammersley_bits 6) = 6%Z.
Proof.
  split; [lia |]. apply (hammersley_bits_involutive 6). lia.
Defined.

(** X3.  For a sample index below the sample count and below [2^47],
    [hammersley] returns a point of the unit square [0,1) x [0,1). *)
Theorem hammersley_unit_square (i N : Z) :
  (0 <= i < N)%Z -> (i < 2 ^ 47)%Z ->
  exists u0 u1 : R,
    hammersley i N = Some (u0, u1) /\ 0 <= u0 < 1 /\ 0 <= u1 < 1.
Proof.
  intros Hi Hfit.
  exists (IZR i / IZR N), (IZR (hammersley_bits i) * tof).
  split; [apply hammersley_some; lia |].
  split; [| apply hammersley_u1_range].
  assert (HN : 0 < IZR N) by (apply IZR_lt; lia).
  assert (H0 : 0 <= IZR i) by (apply IZR_le; lia).
  assert (H1 : IZR i < IZR N) by (apply IZR_lt; lia).
  split.
  - apply Rmult_le_pos; [exact H0 |]. left. now apply Rinv_0_lt_compat.
  - apply (Rmult_lt_reg_r (IZR N)); [exact HN |].
    unfold Rdiv. rewrite Rmult_assoc, Rinv_l, Rmult_1_r, Rmult_1_l by lra.
    exact H1.
Qed.

Lemma hammersley_unit_square_witness :
  (0 <= 5 < 8)%Z /\ (5 < 2 ^ 47)%Z
  /\ exists u0 u1 : R,
       hammersley 5 8 = Some (u0, u1) /\ 0 <= u0 < 1 /\ 0 <= u1 < 1.
Proof.
  split; [lia |]. split; [lia |].
  apply (hammersley_unit_square 5 8); lia.
Defined.

(** X4.  Two distinct 32-bit sample indices never share their second
    coordinate. *)
Theorem hammersley_u1_injective (i j N : Z) (u w : R * R) :
  (0 <= i < 2 ^ 32)%Z -> (0 <= j < 2 ^ 32)%Z ->
  hammersley i N = Some u -> hammersley j N = Some w ->
  snd u = snd w -> i = j.
Proof.
  intros Hi Hj Hu Hw E.
  apply hammersley_inv in Hu, Hw.
  destruct Hu as (-> & _ & _). destruct Hw as (-> & _ & _).
  unfold Reference.point in E. cbn [snd] in E.
  unfold tof in E.
  assert (Eb : IZR (hammersley_bits i) = IZR (hammersley_bits j)) by lra.
  apply eq_IZR in Eb.
  rewrite <- (hammersley_bits_twice i Hi), <- (hammersley_bits_twice j Hj).
  now rewrite Eb.
Qed.

Lemma hammersley_u1_injective_witness :
  (0 <= 3 < 2 ^ 32)%Z /\ (0 <= 3 < 2 ^ 32)%Z
  /\ hammersley 3 8 = Some (Reference.point 3 8)
  /\ snd (Reference.point 3 8) = snd (Reference.point 3 8)
  /\ 3%Z = 3%Z.
Proof.
  assert (H : hammersley 3 8 = Some (Reference.point 3 8))
    by (apply hammersley_some; lia).
  split; [lia |]. split; [lia |]. split; [exact H |].
  split; [reflexivity |].
  apply (hammersley_u1_injective 3 3 8 (Reference.point 3 8)
           (Reference.point 3 8)); [lia | lia | exact H | exact H |
                                    reflexivity].
Defined.

(** X5.  Sample index 0 is the point (0, 0), and a sample point with
    second coordinate 0 is mapped to the surface normal (0, 0, 1),
    whatever the first coordinate and the roughness. *)
Theorem first_sample_is_normal (N : Z) (u0 a : R) :
  N <> 0%Z ->
  hammersley 0 N = Some (0, 0)
  /\ hemisphere_importance_sample_dggx (u0, 0) a = Some (Vec3 0 0 1).
Proof.
  intros HN. split.
  - rewrite hammersley_some by (assumption || lia). unfold Reference.point.
    change (hammersley_bits 0) with 0%Z.
    assert (IZR N <> 0) by now apply not_0_IZR.
    f_equal. f_equal; [field; assumption | ring].
  - unfold hemisphere_importance_sample_dggx.
    cbn [fst snd bind option_monad ret].
    replace (1 + (a + 1) * ((a - 1) * 0)) with 1 by ring.
    rewrite py_div_some by lra.
    replace ((1 - 0) / 1) with 1 by field.
    rewrite py_sqrt_some by lra.
    replace (1 - 1) with 0 by ring.
    rewrite py_sqrt_some by lra.
    rewrite sqrt_0, sqrt_1. f_equal. f_equal; ring.
Qed.

Lemma first_sample_is_normal_witness :
  1024%Z <> 0%Z
  /\ hammersley 0 1024 = Some (0, 0)
  /\ hemisphere_importance_sample_dggx (1 / 4, 0) (1 / 2)
     = Some (Vec3 0 0 1).
Proof.
  split; [discriminate |].
  apply (first_sample_is_normal 1024 (1 / 4) (1 / 2)). discriminate.
Defined.

(** ** Further properties of the visibility term *)





(** X7.  For [nov] in (0,1], [nol] in [0,1] and [a] in (0,1] the
    visibility term lies between [0.5 / (nov + nol)] and
    [0.5 / (a * (nov + nol))]; at [a = 1] the two bounds meet. *)
Theorem visibility_bounds (nov nol a : R) :
  0 < nov <= 1 -> 0 <= nol <= 1 -> 0 < a <= 1 ->
  exists g : R,
    visibility nov nol a = Some g
    /\ 0.5 / (nov + nol) <= g <= 0.5 / (a * (nov + nol)).
Proof.
  intros Hnov Hnol Ha.
  exists (Reference.vis_term nov nol a).
  split; [apply visibility_some; lra |].
  unfold Reference.vis_term. cbv zeta.
  assert (Hb : forall x, 0 <= x <= 1 ->
             a <= sqrt ((x - x * (a * a)) * x + a * a) <= 1).
  { intros x Hx.
    assert (Hlo : a * a <= (x - x * (a * a)) * x + a * a).
    { replace ((x - x * (a * a)) * x + a * a)
        with (a * a + (x * x) * (1 - a * a)) by ring.
      assert (0 <= (x * x) * (1 - a * a)) by (apply Rmult_le_pos; nra).
      lra. }
    assert (Hhi : (x - x * (a * a)) * x + a * a <= 1).
    { replace ((x - x * (a * a)) * x + a * a)
        with (1 - (1 - x * x) * (1 - a * a)) by ring.
      assert (0 <= (1 - x * x) * (1 - a * a)) by (apply Rmult_le_pos; nra).
      lra. }
    split.
    - rewrite <- (sqrt_square a) at 1 by lra. now apply sqrt_le_1_alt.
    - rewrite <- sqrt_1. now apply sqrt_le_1_alt. }
  pose proof (Hb nov (conj (Rlt_le _ _ (proj1 Hnov)) (proj2 Hnov))) as Hsv.
  pose proof (Hb nol Hnol) as Hsl.
  set (sv := sqrt ((nov - nov * (a * a)) * nov + a * a)) in *.
  set (sl := sqrt ((nol - nol * (a * a)) * nol + a * a)) in *.
  assert (Hd1 : a * (nov + nol) <= nol * sv + nov * sl) by nra.
  assert (Hd2 : nol * sv + nov * sl <= nov + nol) by nra.
  assert (Hd0 : 0 < a * (nov + nol)) by nra.
  unfold Rdiv. split.
  - apply Rmult_le_compat_l; [lra |]. apply Rinv_le_contravar; lra.
  - apply Rmult_le_compat_l; [lra |]. apply Rinv_le_contravar; lra.
Qed.

Lemma visibility_bounds_witness :
  0 < 1 / 2 <= 1 /\ 0 <= 1 / 4 <= 1 /\ 0 < 1 <= 1
  /\ exists g : R,
       visibility (1 / 2) (1 / 4) 1 = Some g
       /\ 0.5 / (1 / 2 + 1 / 4) <= g <= 0.5 / (1 * (1 / 2 + 1 / 4)).
Proof.
  split; [lra |]. split; [lra |]. split; [lra |].
  apply (visibility_bounds (1 / 2) (1 / 4) 1); lra.
Defined.

(** ** Further properties of the integrator *)

(** X8.  For [nov] in [-1,1] the view direction built by [calculate_dfg]
    is a unit vector, and reflecting it about a unit half vector [h]
    gives a unit light direction that makes the same angle with [h]. *)
Theorem reflected_direction_unit (nov : R) (h : vec3) :
  -1 <= nov <= 1 -> norm2 h = 1 ->
  norm2 (Vec3 (sqrt (1 - nov * nov)) 0 nov) = 1
  /\ norm2 (vsub (vscale 2 (vscale
              (dot (Vec3 (sqrt (1 - nov * nov)) 0 nov) h) h))
              (Vec3 (sqrt (1 - nov * nov)) 0 nov)) = 1
  /\ dot (vsub (vscale 2 (vscale
              (dot (Vec3 (sqrt (1 - nov * nov)) 0 nov) h) h))
              (Vec3 (sqrt (1 - nov * nov)) 0 nov)) h
     = dot (Vec3 (sqrt (1 - nov * nov)) 0 nov) h.
Proof.
  intros Hnov Hh.
  assert (Hs : sqrt (1 - nov * nov) * sqrt (1 - nov * nov) = 1 - nov * nov)
    by (apply sqrt_sqrt; nra).
  set (v := Vec3 (sqrt (1 - nov * nov)) 0 nov).
  assert (Hv : norm2 v = 1).
  { unfold norm2, v. cbn [vx vy vz]. rewrite Hs. ring. }
  split; [exact Hv |].
  assert (Hl : forall d, norm2 (vsub (vscale 2 (vscale d h)) v)
                         = 4 * d * d * norm2 h - 4 * d * dot v h + norm2 v).
  { intros d. unfold norm2, dot, vsub, vscale. cbn [vx vy vz]. ring. }
  assert (Hd : forall d, dot (vsub (vscale 2 (vscale d h)) v) h
                         = 2 * d * norm2 h - dot v h).
  { intros d. unfold norm2, dot, vsub, vscale. cbn [vx vy vz]. ring. }
  split.
  - rewrite Hl, Hh, Hv. ring.
  - rewrite Hd, Hh. ring.
Qed.

Lemma reflected_direction_unit_witness :
  -1 <= 1 <= 1 /\ norm2 (Vec3 0 0 1) = 1
  /\ norm2 (Vec3 (sqrt (1 - 1 * 1)) 0 1) = 1.
Proof.
  assert (Hh : norm2 (Vec3 0 0 1) = 1)
    by (unfold norm2; cbn [vx vy vz]; ring).
  split; [lra |]. split; [exact Hh |].
  destruct (reflected_direction_unit 1 (Vec3 0 0 1)) as (Hv & _);
    [lra | exact Hh | exact Hv].
Defined.

Lemma trace_bind_length {A B : Type} (m : Trace A) (f : A -> Trace B)
    (p q b : nat) :
  (List.length (fst m) <= p)%nat ->
  (forall x, (List.length (fst (f x)) <= q)%nat) ->
  (p + q <= b)%nat ->
  (List.length (fst (y <- m ;; f y)) <= b)%nat.
Proof.
  intros Hm Hf Hb.
  destruct m as [log [x |]]; cbn [bind trace_monad fst] in *.
  - specialize (Hf x). destruct (f x) as [log' r]. cbn [fst] in *.
    rewrite length_app. lia.
  - lia.
Qed.

Lemma sample_log_args (nov a : R) (n : Z) (v : vec3) (i : Z) (r : R * R) :
  Forall (fun c => call_nov c = nov /\ snd c = a /\ 0 < call_nol c <= 1)
         (fst (sample nov a n v i r)).
Proof.
  unfold sample.
  apply trace_bind_log; [constructor | intros u].
  apply trace_bind_log; [constructor | intros h].
  cbv zeta. destruct (Rlt_dec 0 _) as [Hnol | Hnol].
  - apply trace_bind_log.
    + unfold call_visibility. cbn [fst]. constructor; [| constructor].
      unfold call_nov, call_nol. cbn [fst snd].
      split; [reflexivity |]. split; [reflexivity |].
      split; [exact Hnol | apply saturate_range].
    + intros g. apply trace_bind_log; [constructor | intros q].
      constructor.
  - constructor.
Qed.

Lemma sample_log_length (nov a : R) (n : Z) (v : vec3) (i : Z)
    (r : R * R) :
  (List.length (fst (sample nov a n v i r)) <= 1)%nat.
Proof.
  unfold sample.
  apply (trace_bind_length _ _ 0 1); [cbn; lia | intros u | lia].
  apply (trace_bind_length _ _ 0 1); [cbn; lia | intros h | lia].
  cbv zeta. destruct (Rlt_dec 0 _) as [Hnol | Hnol].
  - apply (trace_bind_length _ _ 1 0); [cbn; lia | intros g | lia].
    apply (trace_bind_length _ _ 0 0); [cbn; lia | intros q | lia].
    cbn. lia.
  - cbn. lia.
Qed.

Lemma loop_log_length (nov a : R) (n : Z) (v : vec3) (xs : list Z)
    (r : R * R) :
  (List.length (fst (for_each xs (sample nov a n v) r))
   <= List.length xs)%nat.
Proof.
  revert r. induction xs as [| i xs IH]; intros r; cbn [for_each].
  - cbn. lia.
  - apply (trace_bind_length _ _ 1 (List.length xs));
      [apply sample_log_length | exact IH | cbn; lia].
Qed.

(** X9.  Whatever its arguments, [calculate_dfg] calls [visibility] at
    most once per sample, always with its own [nov] and [a], and with a
    second argument in (0,1]. *)
Theorem visibility_calls_bounded (nov a : R) (N : Z) :
  Forall (fun c => call_nov c = nov /\ snd c = a /\ 0 < call_nol c <= 1)
         (fst (calculate_dfg nov a N))
  /\ (List.length (fst (calculate_dfg nov a N)) <= Z.to_nat N)%nat.
Proof.
  unfold calculate_dfg. split.
  - apply trace_bind_log; [constructor | intros x].
    apply trace_bind_log; [| intros r].
    + generalize (0, 0). generalize (range N).
      intros xs. induction xs as [| i xs IH]; intros r; cbn [for_each].
      * constructor.
      * apply trace_bind_log; [apply sample_log_args | exact IH].
    + apply trace_bind_log; [constructor | intros k]. constructor.
  - apply (trace_bind_length _ _ 0 (Z.to_nat N));
      [cbn; lia | intros x | lia].
    apply (trace_bind_length _ _ (Z.to_nat N) 0); [| | lia].
    + rewrite <- (range_length N). apply loop_log_length.
    + intros r.
      apply (trace_bind_length _ _ 0 0); [cbn; lia | intros k | lia].
      cbn. lia.
Qed.

(** X10.  With a sample count that is not positive the loop body never
    runs: for [N = 0] the final scaling divides by zero and
    [calculate_dfg] fails, for [N < 0] it returns (0, 0); no call of
    [visibility] is made. *)
Theorem calculate_dfg_without_samples (nov a : R) (N : Z) :
  -1 <= nov <= 1 -> (N <= 0)%Z ->
  calculate_dfg nov a N
  = ([], if (N =? 0)%Z then None else Some (0, 0)).
Proof.
  intros Hnov HN. unfold calculate_dfg.
  rewrite py_sqrt_some by nra. rewrite trace_bind_lift.
  assert (Hr : range N = []).
  { unfold range. replace (Z.to_nat N) with 0%nat by lia. reflexivity. }
  rewrite Hr. cbn [for_each].
  destruct (Z.eqb_spec N 0) as [-> | Hnz].
  - rewrite py_div_zero. reflexivity.
  - rewrite py_div_some by now apply not_0_IZR.
    cbn [bind trace_monad trace_lift ret fst snd app].
    do 2 f_equal. f_equal; ring.
Qed.

Lemma calculate_dfg_without_samples_witness :
  -1 <= 1 / 2 <= 1 /\ (0 <= 0)%Z
  /\ calculate_dfg (1 / 2) 1 0 = ([], None).
Proof.
  split; [lra |]. split; [lia |].
  apply (calculate_dfg_without_samples (1 / 2) 1 0); [lra | lia].
Defined.

(** X11.  When [nov] lies outside [-1,1] the square root that builds the
    view direction fails, so [calculate_dfg] fails before drawing any
    sample. *)
Theorem calculate_dfg_view_domain (nov a : R) (N : Z) :
  1 < nov * nov -> calculate_dfg nov a N = ([], None).
Proof.
  intros Hnov. unfold calculate_dfg, py_sqrt.
  destruct (Rle_dec 0 (1 - nov * nov)) as [H | H]; [exfalso; lra |].
  reflexivity.
Qed.

Lemma calculate_dfg_view_domain_witness :
  1 < 2 * 2 /\ calculate_dfg 2 1 1024 = ([], None).
Proof.
  split; [lra |]. apply (calculate_dfg_view_domain 2 1 1024). lra.
Defined.

Lemma visibility_some_lit (nov nol a : R) :
  0 <= nov -> 0 < nol -> 0 < a <= 1 ->
  visibility nov nol a = Some (Reference.vis_term nov nol a).
Proof.
  intros Hnov Hnol Ha.
  pose proof (vis_radicand_pos nov a Ha).
  pose proof (vis_radicand_pos nol a Ha).
  assert (0 < nol * sqrt ((nov - nov * (a * a)) * nov + a * a)
              + nov * sqrt ((nol - nol * (a * a)) * nol + a * a)).
  { apply vis_divisor_pos_either; lra. }
  unfold visibility, visibility_ggxl, visibility_ggxv, Reference.vis_term.
  cbn [bind option_monad ret].
  rewrite !py_sqrt_some by lra. rewrite py_div_some by lra.
  reflexivity.
Qed.


Lemma calculate_dfg_log_args (nov a : R) (N : Z) :
  Forall (fun c => call_nov c = nov /\ snd c = a /\ 0 < call_nol c <= 1)
         (fst (calculate_dfg nov a N)).
Proof.
  unfold calculate_dfg.
  apply trace_bind_log; [constructor | intros x].
  apply trace_bind_log; [| intros r].
  - generalize (0, 0). generalize (range N).
    intros xs. induction xs as [| i xs IH]; intros r; cbn [for_each].
    + constructor.
    + apply trace_bind_log; [apply sample_log_args | exact IH].
  - apply trace_bind_log; [constructor | intros k]. constructor.
Qed.

(** X12.  At the grazing view too, for [nov] in [0,1] and [a] in (0,1],
    every call of [visibility] that [calculate_dfg] makes returns a
    positive value: the guard [nol > 0] alone keeps the divisor
    positive. *)
Theorem visibility_calls_defined (nov a : R) (N : Z) :
  0 <= nov <= 1 -> 0 < a <= 1 ->
  Forall (fun c => exists g : R,
            visibility (call_nov c) (call_nol c) (snd c) = Some g
            /\ 0 < g)
         (fst (calculate_dfg nov a N)).
Proof.
  intros Hnov Ha.
  eapply Forall_impl; [| apply calculate_dfg_log_args].
  intros c (Ec & Ea & Hnol). rewrite Ec, Ea.
  exists (Reference.vis_term nov (call_nol c) a).
  split; [apply visibility_some_lit; lra |].
  unfold Reference.vis_term. apply Rdiv_lt_0_compat; [lra |].
  apply vis_divisor_pos_either; lra.
Qed.

Lemma visibility_calls_defined_witness :
  0 <= 0 <= 1 /\ 0 < 1 / 2 <= 1
  /\ Forall (fun c => exists g : R,
               visibility (call_nov c) (call_nol c) (snd c) = Some g
               /\ 0 < g)
            (fst (calculate_dfg 0 (1 / 2) 8)).
Proof.
  split; [lra |]. split; [lra |].
  apply (visibility_calls_defined 0 (1 / 2) 8); lra.
Defined.

Lemma ggx_sample_at_zero (u0 a : R) :
  Reference.ggx_sample (u0, 0) a = Vec3 0 0 1.
Proof.
  unfold Reference.ggx_sample. cbn [fst snd].
  replace ((1 - 0) / (1 + (a + 1) * ((a - 1) * 0))) with 1 by field.
  replace (1 - 1) with 0 by ring.
  rewrite sqrt_0, sqrt_1. f_equal; ring.
Qed.

(** X13.  With a single sample the integrator has a closed form: the
    half vector is the normal, and the two channels are
    [nov * (1 - nov)^5 / s] and [nov / s] with
    [s = sqrt((nov - nov*a^2)*nov + a^2)]. *)
Theorem calculate_dfg_single_sample (nov a : R) :
  0 < nov <= 1 -> 0 < a <= 1 ->
  snd (calculate_dfg nov a 1)
  = Some (nov * (1 - nov) ^ 5 / sqrt ((nov - nov * (a * a)) * nov + a * a),
          nov / sqrt ((nov - nov * (a * a)) * nov + a * a)).
Proof.
  intros Hnov Ha.
  rewrite calculate_dfg_value by (assumption || lia).
  pose proof (sqrt_lt_R0 _ (vis_radicand_pos nov a Ha)) as Hs.
  unfold Reference.split_sum. change (range 1) with [0%Z].
  cbn [map Rsum fold_right].
  assert (Hc : Reference.contribution nov a 1 0
               = (Reference.vis_term nov nov a * nov * (nov / 1)
                    * (1 - nov) ^ 5,
                  Reference.vis_term nov nov a * nov * (nov / 1))).
  { unfold Reference.contribution, Reference.point.
    change (hammersley_bits 0) with 0%Z.
    replace (0 * tof) with 0 by ring.
    rewrite ggx_sample_at_zero. cbv zeta.
    assert (Ed : dot (Reference.view nov) (Vec3 0 0 1) = nov)
      by (unfold dot, Reference.view; cbn [vx vy vz]; ring).
    rewrite Ed.
    assert (El : vz (vsub (vscale (2 * nov) (Vec3 0 0 1))
                          (Reference.view nov)) = nov)
      by (unfold Reference.view; cbn [vz vsub vscale]; ring).
    rewrite El. cbn [vz].
    rewrite (saturate_id nov) by lra. rewrite (saturate_id 1) by lra.
    destruct (Rlt_dec 0 nov) as [_ | H]; [reflexivity | exfalso; lra]. }
  rewrite Hc. cbn [fst snd]. unfold Reference.vis_term. cbv zeta.
  set (s := sqrt ((nov - nov * (a * a)) * nov + a * a)) in *.
  clearbody s. clear Hc. replace 0.5 with (1 / 2) by lra.
  assert (Hns : 0 < nov * s) by (apply Rmult_lt_0_compat; lra).
  f_equal. f_equal; field; repeat split; lra.
Qed.

Lemma calculate_dfg_single_sample_witness :
  0 < 1 / 2 <= 1 /\ 0 < 1 <= 1
  /\ snd (calculate_dfg (1 / 2) 1 1)
     = Some (1 / 2 * (1 - 1 / 2) ^ 5
               / sqrt ((1 / 2 - 1 / 2 * (1 * 1)) * (1 / 2) + 1 * 1),
             1 / 2 / sqrt ((1 / 2 - 1 / 2 * (1 * 1)) * (1 / 2) + 1 * 1)).
Proof.
  split; [lra |]. split; [lra |].
  apply (calculate_dfg_single_sample (1 / 2) 1); lra.
Defined.

(** ** Further properties of the output *)

Lemma py_int_top (round : R -> R) (c : R) :
  rounding round -> 1 <= c ->
  py_int (round (saturate c * 255)) = 255%Z.
Proof.
  intros (_ & _ & H255) Hc.
  assert (Es : saturate c = 1).
  { unfold saturate, Rmin, Rmax.
    destruct (Rle_dec c 0); destruct (Rle_dec _ 1); lra. }
  rewrite Es, Rmult_1_l, H255. unfold py_int.
  destruct (Rle_dec 0 255) as [H0 | H0]; [| exfalso; lra].
  symmetry. apply Int_part_spec. lra.
Qed.

Lemma py_int_bottom (round : R -> R) (c : R) :
  rounding round -> c <= 0 ->
  py_int (round (saturate c * 255)) = 0%Z.
Proof.
  intros (_ & H0 & _) Hc.
  assert (Es : saturate c = 0).
  { unfold saturate, Rmin, Rmax.
    destruct (Rle_dec c 0); destruct (Rle_dec _ 1); lra. }
  rewrite Es, Rmult_0_l, H0. unfold py_int.
  destruct (Rle_dec 0 0) as [Hz | Hz]; [| exfalso; lra].
  symmetry. apply Int_part_spec. lra.
Qed.

(** X14.  In portable-pixel-map format a channel of 1 or more is written
    as the byte 255 and a channel of 0 or less as the byte 0, whatever
    the rounding of the product, as long as it is exact on 0 and 255. *)
Theorem write_dfg_ppm_extremes (float16_bytes : R -> list byte)
    (round : R -> R) (dfg1 dfg2 : R) (fp : list byte) :
  rounding round -> 1 <= dfg1 -> dfg2 <= 0 ->
  write_dfg float16_bytes round [dfg1; dfg2] "ppm" fp
  = ((fp ++ ["255"; "000"; "000"]%byte)%list, Some tt).
Proof.
  intros Hround H1 H2. rewrite write_dfg_ppm_unfold.
  rewrite (py_int_top round dfg1 Hround H1).
  rewrite (py_int_bottom round dfg2 Hround H2). reflexivity.
Qed.

Lemma write_dfg_ppm_extremes_witness :
  rounding (fun x => x) /\ 1 <= 3 / 2 /\ -1 <= 0
  /\ write_dfg (fun _ => []) (fun x => x) [3 / 2; -1] "ppm" []
     = (["255"; "000"; "000"]%byte, Some tt).
Proof.
  split; [exact rounding_exact |]. split; [lra |]. split; [lra |].
  apply (write_dfg_ppm_extremes (fun _ => []) (fun x => x) (3 / 2) (-1) []);
    [exact rounding_exact | lra | lra].
Defined.

(** X15.  [write_dfg] fails exactly when its argument does not have two
    elements, and then writes nothing; otherwise it succeeds and only
    appends to the file. *)
Theorem write_dfg_outcome (float16_bytes : R -> list byte)
    (round : R -> R) (dfg : list R) (file_format : string)
    (fp : list byte) :
  rounding round ->
  exists rest : list byte,
    write_dfg float16_bytes round dfg file_format fp
    = if Nat.eqb (List.length dfg) 2
      then ((fp ++ rest)%list, Some tt)
      else (fp, None).
Proof.
  intros Hround.
  destruct (Nat.eqb (List.length dfg) 2) eqn:Elen.
  - apply Nat.eqb_eq in Elen.
    destruct (String.eqb file_format "raw") eqn:Eraw.
    + exists (List.concat (map float16_bytes dfg)).
      unfold write_dfg. rewrite Elen, Eraw. reflexivity.
    + destruct (String.eqb file_format "ppm") eqn:Eppm.
      * apply String.eqb_eq in Eppm. subst file_format.
        destruct dfg as [| d1 [| d2 [| d3 l]]]; try discriminate.
        destruct (write_dfg_ppm_bytes float16_bytes round d1 d2 fp Hround)
          as (r & g & Hw & _).
        exists [r; g; "000"%byte]. exact Hw.
      * exists []. rewrite app_nil_r.
        apply write_dfg_other; [exact Elen | |]; now apply String.eqb_neq.
  - exists []. unfold write_dfg. rewrite Elen. reflexivity.
Qed.

Lemma write_dfg_outcome_witness :
  rounding (fun x => x)
  /\ exists rest : list byte,
       write_dfg (fun _ => []) (fun x => x) [1 / 2; 1 / 4; 1] "ppm" []
       = if Nat.eqb (List.length [1 / 2; 1 / 4; 1]) 2
         then (([] ++ rest)%list, Some tt)
         else ([], None).
Proof.
  split; [exact rounding_exact |].
  apply (write_dfg_outcome (fun _ => []) (fun x => x) [1 / 2; 1 / 4; 1]
           "ppm" []).
  exact rounding_exact.
Defined.

(** *** How much [main] writes *)

Lemma writes_groups_lift {A : Type} (k c : nat) (o : option A)
    (body : A -> File unit) :
  (forall x, writes_groups k c (body x)) ->
  writes_groups k c (x <- file_lift o ;; body x).
Proof.
  intros Hbody fp. cbn [bind file_monad file_lift].
  destruct o as [x |]; [apply Hbody |].
  exists [], 0%nat. cbn [fst snd List.length]. rewrite app_nil_r.
  repeat split; [lia | lia | discriminate].
Qed.

Lemma writes_groups_for_each (k c : nat) (xs : list Z)
    (body : Z -> unit -> File unit) :
  (forall x, writes_groups k c (body x tt)) ->
  writes_groups k (c * List.length xs) (for_each xs body tt).
Proof.
  intros Hbody. induction xs as [| x xs IH]; intros fp.
  - exists [], 0%nat. cbn [for_each ret file_monad fst snd List.length].
    rewrite app_nil_r. repeat split; lia.
  - cbn [for_each bind file_monad List.length].
    destruct (Hbody x fp) as (r1 & j1 & E1 & L1 & B1 & S1).
    destruct (body x tt fp) as [fp1 [[] |]]; cbn [fst snd] in E1, S1.
    + subst fp1. specialize (S1 eq_refl). subst j1.
      destruct (IH (fp ++ r1)%list) as (r2 & j2 & E2 & L2 & B2 & S2).
      exists (r1 ++ r2)%list, (c + j2)%nat.
      rewrite E2, app_assoc, length_app, L1, L2.
      repeat split; [lia | lia |].
      intros Hok. rewrite (S2 Hok). lia.
    + subst fp1. exists r1, j1. cbn [fst snd].
      repeat split; [exact L1 | nia | discriminate].
Qed.

Lemma writes_groups_texel (float16_bytes : R -> list byte) (round : R -> R)
    (k : nat) (resolution samples : Z) (file_format : string) (t s : Z) :
  (forall dfg1 dfg2 : R,
      writes_groups k 1
        (write_dfg float16_bytes round [dfg1; dfg2] file_format)) ->
  writes_groups k 1
    (texel float16_bytes round resolution samples file_format t s).
Proof.
  intros Hw. unfold texel.
  apply writes_groups_lift. intros nov.
  apply writes_groups_lift. intros pr.
  apply writes_groups_lift. intros dfg. apply Hw.
Qed.

Lemma writes_groups_grid (float16_bytes : R -> list byte) (round : R -> R)
    (k : nat) (resolution samples : Z) (file_format : string) :
  (forall dfg1 dfg2 : R,
      writes_groups k 1
        (write_dfg float16_bytes round [dfg1; dfg2] file_format)) ->
  writes_groups k (Z.to_nat resolution * Z.to_nat resolution)
    (for_each (range resolution)
       (fun t _ =>
          for_each (range resolution)
            (fun s _ =>
               texel float16_bytes round resolution samples file_format t s)
            tt) tt).
Proof.
  intros Hw.
  rewrite <- (range_length resolution) at 2.
  apply writes_groups_for_each. intros t.
  replace (Z.to_nat resolution)
    with (1 * List.length (range resolution))%nat
    by (rewrite range_length; lia).
  apply writes_groups_for_each. intros s.
  now apply writes_groups_texel.
Qed.

Lemma writes_groups_ppm (float16_bytes : R -> list byte) (round : R -> R)
    (dfg1 dfg2 : R) :
  writes_groups 3 1 (write_dfg float16_bytes round [dfg1; dfg2] "ppm").
Proof.
  intros fp. rewrite write_dfg_ppm_unfold.
  destruct (pack_B (py_int (round (saturate dfg1 * 255)))) as [r |];
    [destruct (pack_B (py_int (round (saturate dfg2 * 255)))) as [g |] |].
  - exists [r; g; x00], 1%nat. cbn [fst snd List.length].
    repeat split; lia.
  - exists [], 0%nat. cbn [fst snd List.length]. rewrite app_nil_r.
    repeat split; try lia; discriminate.
  - exists [], 0%nat. cbn [fst snd List.length]. rewrite app_nil_r.
    repeat split; try lia; discriminate.
Qed.

Lemma writes_groups_raw (float16_bytes : R -> list byte) (round : R -> R)
    (dfg1 dfg2 : R) :
  (forall x, List.length (float16_bytes x) = 2%nat) ->
  writes_groups 4 1 (write_dfg float16_bytes round [dfg1; dfg2] "raw").
Proof.
  intros Hf fp.
  exists (float16_bytes dfg1 ++ float16_bytes dfg2)%list, 1%nat.
  unfold write_dfg, fp_write.
  cbn [List.length Nat.eqb negb map List.concat fst snd].
  change (String.eqb "raw" "raw") with true. cbn [fst snd].
  rewrite app_nil_r, length_app, !Hf. repeat split; lia.
Qed.

(** X16.  With an integer resolution [R], what [main] writes in
    portable-pixel-map format is the header followed by whole texels of
    three bytes, at most [R * R] of them; when [main] ends without error
    they are exactly [R * R], that is [3 * R * R] bytes. *)
Theorem main_ppm_size (float16_bytes : R -> list byte) (round : R -> R)
    (resolution samples : Z) :
  exists (body : list byte) (m : nat),
    fst (main float16_bytes round (ArgInt resolution) samples "ppm" [])
    = (list_byte_of_string (ppm_header (ArgInt resolution)) ++ body)%list
    /\ List.length body = (3 * m)%nat
    /\ (m <= Z.to_nat resolution * Z.to_nat resolution)%nat
    /\ (snd (main float16_bytes round (ArgInt resolution) samples "ppm" [])
        = Some tt ->
        m = (Z.to_nat resolution * Z.to_nat resolution)%nat).
Proof.
  unfold main. change (String.eqb "ppm" "ppm") with true.
  cbn [bind file_monad fp_write app].
  apply (writes_groups_grid float16_bytes round 3 resolution samples "ppm").
  intros dfg1 dfg2. apply writes_groups_ppm.
Qed.

(** X17.  In raw format, with two bytes per half-precision float, what
    [main] writes is a sequence of whole texels of four bytes, at most
    [R * R] of them and no header; when [main] ends without error they
    are exactly [R * R], that is [4 * R * R] bytes. *)
Theorem main_raw_size (float16_bytes : R -> list byte) (round : R -> R)
    (resolution samples : Z) :
  (forall x, List.length (float16_bytes x) = 2%nat) ->
  exists (body : list byte) (m : nat),
    fst (main float16_bytes round (ArgInt resolution) samples "raw" [])
    = body
    /\ List.length body = (4 * m)%nat
    /\ (m <= Z.to_nat resolution * Z.to_nat resolution)%nat
    /\ (snd (main float16_bytes round (ArgInt resolution) samples "raw" [])
        = Some tt ->
        m = (Z.to_nat resolution * Z.to_nat resolution)%nat).
Proof.
  intros Hf. unfold main. change (String.eqb "raw" "ppm") with false.
  cbn [bind file_monad ret].
  apply (writes_groups_grid float16_bytes round 4 resolution samples "raw").
  intros dfg1 dfg2. now apply writes_groups_raw.
Qed.

Lemma main_raw_size_witness :
  (forall x : R, List.length ((fun _ => [x00; x3c]) x) = 2%nat)
  /\ exists (body : list byte) (m : nat),
       fst (main (fun _ => [x00; x3c]) (fun x => x) (ArgInt 64) 1024
              "raw" [])
       = body
       /\ List.length body = (4 * m)%nat
       /\ (m <= Z.to_nat 64 * Z.to_nat 64)%nat
       /\ (snd (main (fun _ => [x00; x3c]) (fun x => x) (ArgInt 64) 1024
                 "raw" [])
           = Some tt ->
           m = (Z.to_nat 64 * Z.to_nat 64)%nat).
Proof.
  split; [reflexivity |].
  apply (main_raw_size (fun _ => [x00; x3c]) (fun x => x) 64 1024).
  reflexivity.
Defined.


(** X18.  A resolution given on the command line reaches [main] as text:
    the header, if any, is written with that text, and the first
    [range] call fails, so no texel is written. *)
Theorem main_text_resolution (float16_bytes : R -> list byte)
    (round : R -> R) (s : string) (samples : Z) (file_format : string) :
  main float16_bytes round (ArgStr s) samples file_format []
  = ((if String.eqb file_format "ppm"
      then list_byte_of_string ("P6" ++ newline ++ s ++ " " ++ s
                                     ++ newline ++ "255" ++ newline)
      else []),
     None).
Proof.
  unfold main. destruct (String.eqb file_format "ppm"); reflexivity.
Qed.

Lemma calculate_dfg_zero_samples (nov a : R) :
  -1 <= nov <= 1 -> snd (calculate_dfg nov a 0) = None.
Proof.
  intros Hnov. unfold calculate_dfg.
  rewrite py_sqrt_some by nra. rewrite trace_bind_lift.
  change (range 0) with (@nil Z). cbn [for_each].
  rewrite py_div_zero. reflexivity.
Qed.

(** X19.  With a sample count of zero and a positive integer resolution,
    [main] fails at the first texel: the output holds the header only
    (nothing in raw format). *)
Theorem main_without_samples (float16_bytes : R -> list byte)
    (round : R -> R) (resolution : Z) (file_format : string) :
  (1 <= resolution)%Z ->
  main float16_bytes round (ArgInt resolution) 0 file_format []
  = ((if String.eqb file_format "ppm"
      then list_byte_of_string (ppm_header (ArgInt resolution))
      else []),
     None).
Proof.
  intros HR.
  assert (Hrange : exists xs, range resolution = 0%Z :: xs).
  { unfold range. destruct (Z.to_nat resolution) as [| m] eqn:E; [lia |].
    exists (map Z.of_nat (seq 1 m)). reflexivity. }
  destruct Hrange as (xs & Hxs).
  assert (HRr : 0 < IZR resolution) by (apply IZR_lt; lia).
  assert (H1 : 1 <= IZR resolution) by (apply IZR_le; lia).
  assert (Htexel : forall fp,
            texel float16_bytes round resolution 0 file_format 0 0 fp
            = (fp, None)).
  { intros fp. unfold texel. rewrite !py_div_some by lra.
    cbn [bind file_monad file_lift].
    rewrite calculate_dfg_zero_samples; [reflexivity |].
    assert (0 < (0 + 0.5) / IZR resolution <= 1); [| lra].
    split.
    - apply Rdiv_lt_0_compat; lra.
    - apply (Rmult_le_reg_r (IZR resolution)); [exact HRr |].
      unfold Rdiv. rewrite Rmult_assoc, Rinv_l, Rmult_1_r, Rmult_1_l by lra.
      lra. }
  unfold main. rewrite Hxs.
  destruct (String.eqb file_format "ppm");
    cbn [bind file_monad fp_write ret for_each app];
    rewrite Htexel; reflexivity.
Qed.

Lemma main_without_samples_witness :
  (1 <= 64)%Z
  /\ main (fun _ => []) (fun x => x) (ArgInt 64) 0 "raw" [] = ([], None).
Proof.
  split; [lia |].
  apply (main_without_samples (fun _ => []) (fun x => x) 64 "raw"). lia.
Defined.

(** A loop over a file that ends without error has appended what each
    pass appended, in the order of the loop, and each pass ended without
    error. *)
Lemma file_loop_success (xs : list Z) (body : Z -> unit -> File unit)
    (g : Z -> list byte) (P : Z -> Prop) :
  (forall x fp1 fp2, body x tt fp1 = (fp2, Some tt) ->
                     fp2 = (fp1 ++ g x)%list /\ P x) ->
  forall fp fp', for_each xs body tt fp = (fp', Some tt) ->
    fp' = (fp ++ List.concat (map g xs))%list
    /\ forall x, In x xs -> P x.
Proof.
  intros Hbody. induction xs as [| x xs IH]; intros fp fp' H.
  - cbn [for_each ret file_monad] in H. injection H as <-.
    cbn [map List.concat]. rewrite app_nil_r. split; [reflexivity |].
    intros y [].
  - cbn [for_each bind file_monad] in H.
    destruct (body x tt fp) as [fp1 [[] |]] eqn:E; [| discriminate].
    apply Hbody in E. destruct E as (-> & Px).
    apply IH in H. destruct H as (-> & Pxs).
    cbn [map List.concat]. rewrite app_assoc. split; [reflexivity |].
    intros y [<- | Hy]; [exact Px | now apply Pxs].
Qed.

Lemma py_div_inv (x y q : R) : py_div x y = Some q -> q = x / y.
Proof.
  unfold py_div. destruct (Req_dec_T y 0); [discriminate |].
  now intros [= <-].
Qed.

(** A texel written without error in portable-pixel-map format: the
    integrator returned and the three bytes are made of its result. *)
Lemma texel_success (float16_bytes : R -> list byte) (round : R -> R)
    (resolution samples : Z) (t s : Z) (fp1 fp2 : list byte) :
  texel float16_bytes round resolution samples "ppm" t s fp1
  = (fp2, Some tt) ->
  fp2 = (fp1 ++ fst (texel float16_bytes round resolution samples "ppm"
                       t s []))%list
  /\ exists (dfg1 dfg2 : R) (r g : byte),
       snd (calculate_dfg ((IZR s + 0.5) / IZR resolution)
              (((IZR t + 0.5) / IZR resolution) ^ 2) samples)
       = Some (dfg1, dfg2)
       /\ fst (texel float16_bytes round resolution samples "ppm" t s [])
          = [r; g; x00]
       /\ byte_value r = py_int (round (saturate dfg1 * 255))
       /\ byte_value g = py_int (round (saturate dfg2 * 255)).
Proof.
  unfold texel. cbn [bind file_monad file_lift].
  destruct (py_div (IZR s + 0.5) (IZR resolution)) as [nov |] eqn:E1;
    [| discriminate].
  destruct (py_div (IZR t + 0.5) (IZR resolution)) as [pr |] eqn:E2;
    [| discriminate].
  apply py_div_inv in E1, E2. subst nov pr.
  destruct (snd (calculate_dfg _ _ samples)) as [[d1 d2] |];
    [| discriminate].
  cbn [fst snd]. rewrite !write_dfg_ppm_unfold.
  destruct (pack_B (py_int (round (saturate d1 * 255)))) as [r |] eqn:Er;
    [| discriminate].
  destruct (pack_B (py_int (round (saturate d2 * 255)))) as [g |] eqn:Eg;
    [| discriminate].
  intros [= <-]. cbn [fst app]. split; [reflexivity |].
  exists d1, d2, r, g.
  repeat split; [now apply pack_B_value | now apply pack_B_value].
Qed.

(** X20.  When [main] ends without error in portable-pixel-map format,
    the output is the header followed by the texels row by row, the
    roughness index [t] outermost and the view index [s] innermost; at
    each texel [calculate_dfg] returned at ((s + 0.5) / R,
    ((t + 0.5) / R)^2), and the texel is the two bytes obtained from its
    result by truncating the rounded product with 255, then a zero
    byte. *)
Theorem main_ppm_layout (float16_bytes : R -> list byte) (round : R -> R)
    (resolution samples : Z) (out : list byte) :
  main float16_bytes round (ArgInt resolution) samples "ppm" []
  = (out, Some tt) ->
  exists px : Z -> Z -> list byte,
    out = (list_byte_of_string (ppm_header (ArgInt resolution))
           ++ List.concat
                (map (fun t => List.concat (map (px t) (range resolution)))
                     (range resolution)))%list
    /\ forall t s : Z, In t (range resolution) -> In s (range resolution) ->
       exists (dfg1 dfg2 : R) (r g : byte),
         snd (calculate_dfg ((IZR s + 0.5) / IZR resolution)
                (((IZR t + 0.5) / IZR resolution) ^ 2) samples)
         = Some (dfg1, dfg2)
         /\ px t s = [r; g; x00]
         /\ byte_value r = py_int (round (saturate dfg1 * 255))
         /\ byte_value g = py_int (round (saturate dfg2 * 255)).
Proof.
  unfold main. change (String.eqb "ppm" "ppm") with true.
  cbn [bind file_monad fp_write app]. intros H.
  exists (fun t s =>
            fst (texel float16_bytes round resolution samples "ppm" t s [])).
  set (px := fun t s =>
         fst (texel float16_bytes round resolution samples "ppm" t s [])).
  set (Q := fun t s => exists (dfg1 dfg2 : R) (r g : byte),
         snd (calculate_dfg ((IZR s + 0.5) / IZR resolution)
                (((IZR t + 0.5) / IZR resolution) ^ 2) samples)
         = Some (dfg1, dfg2)
         /\ px t s = [r; g; x00]
         /\ byte_value r = py_int (round (saturate dfg1 * 255))
         /\ byte_value g = py_int (round (saturate dfg2 * 255))).
  assert (Hrow : forall t fp1 fp2,
            for_each (range resolution)
              (fun s _ =>
                 texel float16_bytes round resolution samples "ppm" t s)
              tt fp1 = (fp2, Some tt) ->
            fp2 = (fp1 ++ List.concat (map (px t) (range resolution)))%list
            /\ forall s, In s (range resolution) -> Q t s).
  { intros t fp1 fp2 Ht.
    apply (file_loop_success (range resolution)
             (fun s _ =>
                texel float16_bytes round resolution samples "ppm" t s)
             (px t) (Q t)); [| exact Ht].
    intros s fp3 fp4 Hs. now apply texel_success in Hs. }
  destruct (file_loop_success (range resolution)
              (fun t _ =>
                 for_each (range resolution)
                   (fun s _ =>
                      texel float16_bytes round resolution samples "ppm" t s)
                   tt)
              (fun t => List.concat (map (px t) (range resolution)))
              (fun t => forall s, In s (range resolution) -> Q t s)
              Hrow _ _ H) as (E & HQ).
  split; [exact E |]. intros t s Ht Hs. now apply HQ.
Qed.

Lemma main_ppm_layout_witness :
  exists out : list byte,
    main (fun _ => []) (fun x => x) (ArgInt 1) 4 "ppm" [] = (out, Some tt)
    /\ exists px : Z -> Z -> list byte,
         out = (list_byte_of_string (ppm_header (ArgInt 1))
                ++ List.concat
                     (map (fun t => List.concat (map (px t) (range 1)))
                          (range 1)))%list
         /\ forall t s : Z, In t (range 1) -> In s (range 1) ->
            exists (dfg1 dfg2 : R) (r g : byte),
              snd (calculate_dfg ((IZR s + 0.5) / IZR 1)
                     (((IZR t + 0.5) / IZR 1) ^ 2) 4)
              = Some (dfg1, dfg2)
              /\ px t s = [r; g; x00]
              /\ byte_value r = py_int ((fun x => x) (saturate dfg1 * 255))
              /\ byte_value g = py_int ((fun x => x) (saturate dfg2 * 255)).
Proof.
  assert (Hret : exists out : list byte,
            main (fun _ => []) (fun x => x) (ArgInt 1) 4 "ppm" []
            = (out, Some tt)).
  { unfold main. change (String.eqb "ppm" "ppm") with true.
    change (range 1) with [0%Z].
    cbn [bind file_monad fp_write for_each ret app]. unfold texel.
    rewrite !py_div_some by lra. cbn [bind file_monad file_lift].
    rewrite calculate_dfg_value by (cbn [pow]; lra || lia).
    destruct (write_dfg_ppm_bytes (fun _ => []) (fun x => x)
                (fst (Reference.split_sum ((0 + 0.5) / 1)
                        (((0 + 0.5) / 1) ^ 2) 4))
                (snd (Reference.split_sum ((0 + 0.5) / 1)
                        (((0 + 0.5) / 1) ^ 2) 4))
                (list_byte_of_string (ppm_header (ArgInt 1)))
                rounding_exact)
      as (r & g & Hw & _).
    rewrite Hw. eexists. reflexivity. }
  destruct Hret as (out & E). exists out. split; [exact E |].
  exact (main_ppm_layout (fun _ => []) (fun x => x) 1 4 out E).
Defined.



(** X22.  A direction that the sampler returns, for [u1] in [0,1) and
    [a] in (0,1], has squared magnitude 1 and a third component in
    (0,1]. *)
Theorem dggx_returned_direction (u0 u1 a : R) (h : vec3) :
  0 <= u1 < 1 -> 0 < a <= 1 ->
  hemisphere_importance_sample_dggx (u0, u1) a = Some h ->
  norm2 h = 1 /\ 0 < vz h <= 1.
Proof.
  intros Hu Ha Hh. rewrite dggx_some in Hh by assumption.
  injection Hh as <-.
  split; [now apply ggx_sample_unit |].
  split; [now apply ggx_sample_z_pos |].
  pose proof (dggx_cos_theta2_range u1 a Hu Ha) as Hc.
  unfold Reference.ggx_sample. cbn [fst snd vz].
  apply (Rle_trans _ (sqrt 1)); [| rewrite sqrt_1; lra].
  apply sqrt_le_1_alt. lra.
Qed.

Lemma dggx_returned_direction_witness :
  0 <= 3 / 4 < 1 /\ 0 < 1 / 2 <= 1
  /\ hemisphere_importance_sample_dggx (0, 3 / 4) (1 / 2)
     = Some (Reference.ggx_sample (0, 3 / 4) (1 / 2))
  /\ norm2 (Reference.ggx_sample (0, 3 / 4) (1 / 2)) = 1
  /\ 0 < vz (Reference.ggx_sample (0, 3 / 4) (1 / 2)) <= 1.
Proof.
  assert (H1 : hemisphere_importance_sample_dggx (0, 3 / 4) (1 / 2)
               = Some (Reference.ggx_sample (0, 3 / 4) (1 / 2)))
    by (apply dggx_some; lra).
  split; [lra |]. split; [lra |]. split; [exact H1 |].
  apply (dggx_returned_direction 0 (3 / 4) (1 / 2) _); [lra | lra | exact H1].
Defined.
